(** * pid_control: kinematic vehicle and twiddle optimisers

    A shallow embedding of [pid_control/pid_control.py] (class [Robot] and
    the single-parameter [twiddle]) and of the vector [twiddle] nested in
    [tests/test_pid_control.py].

    Numbers.  The Python code computes with binary64 floats.  The embedding
    idealises them as exact numbers: the vehicle, which needs [tan], [cos],
    [sin] and [pi], lives in the reals [R]; the two optimisers, which only
    add, subtract, scale and compare, live in the rationals [Q] and stay
    executable.  Overflow, infinities and NaN are outside these models,
    and so is rounding, with one exception: whether the heading can reach
    2 pi turns on the rounded addition inside Python's [%], which the
    modules [Binary64] (the binary64 numbers themselves) and [Rounded]
    (the reals with an explicit rounding) model. *)

From Stdlib Require Import Reals Lra Lia List ZArith QArith Qabs Bool.
From Stdlib Require Import SetoidList Morphisms Qpower.
From Stdlib Require Lqa.
From Stdlib Require Floats.
Import ListNotations.

(** ** The vehicle: class [Robot] *)

Module Robot.

Local Open Scope R_scope.

(** The attributes assigned by [Robot.__init__]. *)
Record Robot : Type := mkRobot {
  x : R;
  y : R;
  orientation : R;
  length : R;
  steering_noise : R;
  distance_noise : R;
  steering_drift : R
}.

(** [Robot.__init__(length)]: pose (0, 0, 0), no noise, no drift. *)
Definition init (len : R) : Robot :=
  {| x := 0; y := 0; orientation := 0; length := len;
     steering_noise := 0; distance_noise := 0; steering_drift := 0 |}.

(** Python's [a % b] on floats, in exact arithmetic: [a - b * floor (a / b)],
    a value with the sign of the divisor [b]. *)
Definition pymod (a b : R) : R := a - b * IZR (Int_part (a / b)).

Definition two_pi : R := 2 * PI.

(** [Robot.set(x, y, orientation)]. *)
Definition set (x0 y0 o : R) (r : Robot) : Robot :=
  {| x := x0; y := y0; orientation := pymod o two_pi;
     length := length r;
     steering_noise := steering_noise r;
     distance_noise := distance_noise r;
     steering_drift := steering_drift r |}.

(** [Robot.set_noise(steering_noise, distance_noise)]. *)
Definition set_noise (sn dn : R) (r : Robot) : Robot :=
  {| x := x r; y := y r; orientation := orientation r;
     length := length r;
     steering_noise := sn;
     distance_noise := dn;
     steering_drift := steering_drift r |}.

(** [Robot.set_steering_drift(drift)]. *)
Definition set_steering_drift (drift : R) (r : Robot) : Robot :=
  {| x := x r; y := y r; orientation := orientation r;
     length := length r;
     steering_noise := steering_noise r;
     distance_noise := distance_noise r;
     steering_drift := drift |}.

(** The global random generator that [random.gauss] reads and advances, as
    an explicit stream of standard normal draws. *)
Definition rng : Type := nat -> R.

(** A generator whose every draw is [z]. *)
Definition constant_draws (z : R) : rng := fun _ => z.

(** [random.gauss(mu, sigma)]: the library returns [mu + z * sigma] for the
    next standard normal draw [z]. *)
Definition gauss (mu sigma : R) (g : rng) : R * rng :=
  (mu + g 0%nat * sigma, fun n => g (S n)).

(** [Robot.move(steering, distance, tolerance, max_steering_angle)], with the
    generator threaded through. *)
Definition move (steering distance tolerance max_steering_angle : R)
    (st : Robot * rng) : Robot * rng :=
  let (r, g) := st in
  let steering :=
    if Rlt_dec max_steering_angle steering then max_steering_angle
    else steering in
  let steering :=
    if Rlt_dec steering (- max_steering_angle) then - max_steering_angle
    else steering in
  let distance := if Rlt_dec distance 0 then 0 else distance in
  (* apply noise *)
  let (steering2, g) := gauss steering (steering_noise r) g in
  let (distance2, g) := gauss distance (distance_noise r) g in
  (* apply steering drift *)
  let steering2 := steering2 + steering_drift r in
  (* execute motion *)
  let turn := tan steering2 * distance2 / length r in
  if Rlt_dec (Rabs turn) tolerance then
    (* approximate by straight line motion *)
    ({| x := x r + distance2 * cos (orientation r);
        y := y r + distance2 * sin (orientation r);
        orientation := pymod (orientation r + turn) two_pi;
        length := length r;
        steering_noise := steering_noise r;
        distance_noise := distance_noise r;
        steering_drift := steering_drift r |}, g)
  else
    (* approximate bicycle model for motion *)
    let radius := distance2 / turn in
    let cx := x r - sin (orientation r) * radius in
    let cy := y r + cos (orientation r) * radius in
    let o := pymod (orientation r + turn) two_pi in
    ({| x := cx + sin o * radius;
        y := cy - cos o * radius;
        orientation := o;
        length := length r;
        steering_noise := steering_noise r;
        distance_noise := distance_noise r;
        steering_drift := steering_drift r |}, g).

(** The default arguments of [move]. *)
Definition default_tolerance : R := 1 / 1000.
Definition default_max_steering_angle : R := PI / 4.

(** The method calls a client can make on a vehicle. *)
Inductive call : Type :=
| CallMove (steering distance tolerance max_steering_angle : R)
| CallSet (x0 y0 o : R)
| CallSetNoise (sn dn : R)
| CallSetSteeringDrift (drift : R).

Definition exec (c : call) (st : Robot * rng) : Robot * rng :=
  match c with
  | CallMove s d t m => move s d t m st
  | CallSet x0 y0 o => (set x0 y0 o (fst st), snd st)
  | CallSetNoise sn dn => (set_noise sn dn (fst st), snd st)
  | CallSetSteeringDrift d => (set_steering_drift d (fst st), snd st)
  end.

(** The states reached after each call of a sequence, in order. *)
Fixpoint states (cs : list call) (st : Robot * rng) : list (Robot * rng) :=
  match cs with
  | [] => []
  | c :: cs' => let st' := exec c st in st' :: states cs' st'
  end.

(** The pose read off a vehicle after a step. *)
Definition pose (r : Robot) : R * R * R := (x r, y r, orientation r).

(** Driving a list of [(steering, distance)] commands with the default
    [tolerance] and [max_steering_angle], recording the pose after each
    [move]. *)
Fixpoint trajectory (cmds : list (R * R)) (st : Robot * rng)
    : list (R * R * R) :=
  match cmds with
  | [] => []
  | (s, d) :: cmds' =>
      let st' := move s d default_tolerance default_max_steering_angle st in
      pose (fst st') :: trajectory cmds' st'
  end.

(** [n] calls [move(steering, distance)] in a row. *)
Fixpoint repeat_move (n : nat) (steering distance tolerance msa : R)
    (st : Robot * rng) : Robot * rng :=
  match n with
  | O => st
  | S n' => repeat_move n' steering distance tolerance msa
              (move steering distance tolerance msa st)
  end.

(** An angle is normalised when it lies in [[0, 2 pi)]. *)
Definition normalised (a : R) : Prop := 0 <= a < two_pi.

End Robot.

(** ** Comparisons on exact rationals *)

(** Python's [a < b] on numbers, as a boolean; [a > b] is [Qlt_bool b a]. *)
Definition Qlt_bool (a b : Q) : bool := negb (Qle_bool b a).

(** ** The single-parameter optimiser: [twiddle] of [pid_control.py] *)

Module Twiddle.

Local Open Scope Q_scope.

(** One end of [domain]: [None] stands for the infinite default, which no
    comparison ever exceeds. *)
Definition bound : Type := option Q.

(** [v > domain[1]]. *)
Definition above (v : Q) (hi : bound) : bool :=
  match hi with
  | Some h => Qlt_bool h v
  | None => false
  end.

(** [v < domain[0]]. *)
Definition below (v : Q) (lo : bound) : bool :=
  match lo with
  | Some l => Qlt_bool v l
  | None => false
  end.

(** [abs(b - v) / 2] for the bound [b] of a guard that fired; an infinite
    bound never fires its guard. *)
Definition half_gap (b : bound) (v : Q) : Q :=
  match b with
  | Some q => Qabs (q - v) / 2
  | None => 0
  end.

(** The dict [pastCalls], keyed by number: an association list searched by
    numeric equality of the key, as [x in pastCalls] and [pastCalls[x]] do. *)
Definition memo : Type := list (Q * Q).

Fixpoint lookup (k : Q) (m : memo) : option Q :=
  match m with
  | [] => None
  | (k', v) :: m' => if Qeq_bool k k' then Some v else lookup k m'
  end.

(** The local variables of [twiddle], and the log [calls] of the inputs the
    objective was invoked on, most recent first. *)
Record search : Type := mkSearch {
  x : Q;
  delta : Q;
  bestScore : Q;
  pastCalls : memo;
  calls : list Q
}.

(** The returned dict [{"parameter": x, "score": bestScore}]. *)
Record result : Type := mkResult {
  parameter : Q;
  score : Q
}.

Section Objective.

Variable A : Type.
Variable objFunction : Q -> A -> Q.
Variable args : A.

(** The memoised evaluation
[[
    if x not in pastCalls:
        score = objFunction(x, args)
        pastCalls[x] = score
    score = pastCalls[x]
]]
    returning the score, the dict and the call log. *)
Definition evaluate (v : Q) (m : memo) (log : list Q) : Q * memo * list Q :=
  match lookup v m with
  | Some s => (s, m, log)
  | None => let s := objFunction v args in (s, (v, s) :: m, v :: log)
  end.

(** The statements before the loop. *)
Definition start (init : Q) : search :=
  let s := objFunction init args in
  {| x := init; delta := 1 # 10; bestScore := s;
     pastCalls := [(init, s)]; calls := [init] |}.

(** The step after the upper guard, and the upward probe point. *)
Definition up_delta (domain : bound * bound) (s : search) : Q :=
  if above (x s + delta s) (snd domain) then half_gap (snd domain) (x s)
  else delta s.

Definition up_probe (domain : bound * bound) (s : search) : Q :=
  x s + up_delta domain s.

(** The step after the lower guard, and the downward probe point. *)
Definition down_delta (domain : bound * bound) (s : search) : Q :=
  let x1 := up_probe domain s in
  let d1 := up_delta domain s in
  if below (x1 - d1) (fst domain) then half_gap (fst domain) x1 else d1.

Definition down_probe (domain : bound * bound) (s : search) : Q :=
  up_probe domain s - 2 * down_delta domain s.

(** One pass through the body of [while delta > tolerance]. *)
Definition body (domain : bound * bound) (s : search) : search :=
  (* Keep x within bounds *)
  let d1 := up_delta domain s in
  let x1 := x s + d1 in
  let '(score1, m1, log1) := evaluate x1 (pastCalls s) (calls s) in
  if Qlt_bool (bestScore s) score1 then
    {| x := x1; delta := d1 * 2; bestScore := score1;
       pastCalls := m1; calls := log1 |}
  else
    (* Keep x within bounds *)
    let d2 := if below (x1 - d1) (fst domain)
              then half_gap (fst domain) x1 else d1 in
    let x2 := x1 - 2 * d2 in
    let '(score2, m2, log2) := evaluate x2 m1 log1 in
    if Qlt_bool (bestScore s) score2 then
      {| x := x2; delta := d2 * 2; bestScore := score2;
         pastCalls := m2; calls := log2 |}
    else
      {| x := x2 + d2; delta := d2 * (1 # 2); bestScore := bestScore s;
         pastCalls := m2; calls := log2 |}.

(** [while delta > tolerance: body]; [None] when the fuel runs out before
    the condition fails. *)
Fixpoint loop (fuel : nat) (tolerance : Q) (domain : bound * bound)
    (s : search) : option search :=
  if Qlt_bool tolerance (delta s) then
    match fuel with
    | O => None
    | S fuel' => loop fuel' tolerance domain (body domain s)
    end
  else Some s.

(** The local variables when [twiddle] reaches its [return]. *)
Definition final (fuel : nat) (init tolerance : Q) (domain : bound * bound)
    : option search :=
  loop fuel tolerance domain (start init).

(** [twiddle(objFunction, args, init, tolerance, domain)]. *)
Definition twiddle (fuel : nat) (init tolerance : Q)
    (domain : bound * bound) : option result :=
  option_map (fun s => {| parameter := x s; score := bestScore s |})
             (final fuel init tolerance domain).

(** The search state after [n] passes through the loop body. *)
Fixpoint iterate (n : nat) (domain : bound * bound) (s : search) : search :=
  match n with
  | O => s
  | S n' => iterate n' domain (body domain s)
  end.

End Objective.

(** The default [domain=(float("-inf"), float("inf"))]. *)
Definition unbounded : bound * bound := (None, None).

(** [v] lies in the closed interval [domain]. *)
Definition in_domain (domain : bound * bound) (v : Q) : Prop :=
  below v (fst domain) = false /\ above v (snd domain) = false.

End Twiddle.

(** ** The vector optimiser: [twiddle] of [test_parameter_optrimization] *)

Module VectorTwiddle.

Local Open Scope Q_scope.

(** [l[i] = v] on a Python list.  Every index the sweep uses comes from
    [range(len(p))], so it is in range; out of range (where Python raises
    [IndexError]) the list is returned as it is. *)
Fixpoint update (i : nat) (v : Q) (l : list Q) : list Q :=
  match l, i with
  | [], _ => []
  | _ :: t, O => v :: t
  | h :: t, S j => h :: update j v t
  end.

(** [l[i]], read with [nth i l 0]. *)
Definition get (i : nat) (l : list Q) : Q := nth i l 0.

(** [sum(dp)]: Python adds the items to 0 from left to right. *)
Definition sum (l : list Q) : Q := fold_left Qplus l 0.

(** The local variables [p], [dp] and [best_err]. *)
Record state : Type := mkState {
  p : list Q;
  dp : list Q;
  best_err : Q
}.

(** What a Python call hands back: the tuple [(p, best_err)], or [None] when
    control falls off the end of the function. *)
Inductive pyresult : Type :=
| PyNone
| PyTuple (params : list Q) (err : Q).

(** A loop body either falls through to the next test of the condition or
    executes [return]. *)
Inductive flow (S V : Type) : Type :=
| Continue (s : S)
| Return (v : V).

Arguments Continue {S V} s.
Arguments Return {S V} v.

(** [while cond: body], run for at most [fuel] passes: [None] when the fuel
    runs out, [Some (inl s)] when the condition fails in state [s],
    [Some (inr v)] when the body returns [v]. *)
Fixpoint while {S V : Type} (fuel : nat) (cond : S -> bool)
    (body : S -> flow S V) (s : S) : option (S + V) :=
  if cond s then
    match fuel with
    | O => None
    | Datatypes.S fuel' =>
        match body s with
        | Continue s' => while fuel' cond body s'
        | Return v => Some (inr v)
        end
    end
  else Some (inl s).

Section Objective.

(** The error [run(make_robot(), p)[2]] of a parameter vector, measured on a
    fresh vehicle each time. *)
Variable run : list Q -> Q.

(** The body of [for i in range(len(p))]. *)
Definition axis_step (i : nat) (s : state) : state :=
  (* p[i] += dp[i] *)
  let p1 := update i (get i (p s) + get i (dp s)) (p s) in
  let error := run p1 in
  if Qlt_bool error (best_err s) then
    (* There was some improvement *)
    {| p := p1;
       dp := update i (get i (dp s) * (11 # 10)) (dp s);
       best_err := error |}
  else
    (* p[i] -= 2.*p[i]  # Go into the other direction *)
    let p2 := update i (get i p1 - 2 * get i p1) p1 in
    let error := run p2 in
    if Qlt_bool error (best_err s) then
      {| p := p2;
         dp := update i (get i (dp s) * (11 # 10)) (dp s);
         best_err := error |}
    else
      (* p[i] += dp[i]; dp[i] *= 0.9 *)
      {| p := update i (get i p2 + get i (dp s)) p2;
         dp := update i (get i (dp s) * (9 # 10)) (dp s);
         best_err := best_err s |}.

(** The probe of one axis as the specification words it: add the step and
    evaluate; on improvement accept and grow the step by 1.1; otherwise move
    to the original value minus the step and evaluate; on improvement accept
    and grow the step by 1.1; otherwise restore the original value and
    shrink the step by 0.9. *)
Definition axis_step_spec (i : nat) (s : state) : state :=
  let original := get i (p s) in
  let step := get i (dp s) in
  let p1 := update i (original + step) (p s) in
  if Qlt_bool (run p1) (best_err s) then
    {| p := p1; dp := update i (step * (11 # 10)) (dp s);
       best_err := run p1 |}
  else
    let p2 := update i (original - step) (p s) in
    if Qlt_bool (run p2) (best_err s) then
      {| p := p2; dp := update i (step * (11 # 10)) (dp s);
         best_err := run p2 |}
    else
      {| p := update i original (p s);
         dp := update i (step * (9 # 10)) (dp s);
         best_err := best_err s |}.

(** The axes [0 .. n-1] probed in order, each with [step]. *)
Definition axes (step : nat -> state -> state) (n : nat) (s : state)
    : state :=
  fold_left (fun st i => step i st) (seq 0 n) s.

(** [for i in range(len(p)): ...]: one sweep over all axes. *)
Definition sweep (s : state) : state :=
  axes axis_step (List.length (p s)) s.

(** The statements before the loop: [p = [0, 0, 0]], [dp = [1, 1, 1]],
    [best_err] from a first run. *)
Definition start : state :=
  {| p := [0; 0; 0]; dp := [1; 1; 1]; best_err := run [0; 0; 0] |}.

(** The body of [while sum(dp) > tol]: the sweep, then the
    [return p, best_err] that sits inside the loop. *)
Definition while_body (s : state) : flow state (list Q * Q) :=
  let s' := sweep s in
  Return (p s', best_err s').

(** [twiddle(tol)]; [None] when the fuel runs out. *)
Definition twiddle (fuel : nat) (tol : Q) : option pyresult :=
  match while fuel (fun s => Qlt_bool tol (sum (dp s))) while_body start with
  | None => None
  | Some (inl _) => Some PyNone
  | Some (inr (params, err)) => Some (PyTuple params err)
  end.

(** The search the specification describes: sweeps repeated while
    [sum(dp) > tol], returning only when the condition fails. *)
Definition twiddle_spec (fuel : nat) (tol : Q) : option pyresult :=
  match while (V := list Q * Q) fuel (fun s => Qlt_bool tol (sum (dp s)))
              (fun s => Continue (sweep s)) start with
  | None => None
  | Some (inl s) => Some (PyTuple (p s) (best_err s))
  | Some (inr (params, err)) => Some (PyTuple params err)
  end.

End Objective.

End VectorTwiddle.

(** ** The heading in binary64 *)

(** The exact models above cannot tell whether a remainder reaches its
    modulus: in binary64 the last addition of Python's [%] is rounded.
    This module computes the heading that [set] and [move] store with
    binary64 numbers themselves. *)

Module Binary64.

Import Floats.
Local Open Scope float_scope.

(** C's [fmod] on binary64, which Python's float [%] calls: the exact
    remainder of the truncated division, with the sign of [x]; [x] itself
    when [x] is zero or [y] infinite, and NaN when [x] is infinite, [y]
    zero or either is NaN. *)
Definition fmod (x y : float) : float :=
  match Prim2SF x, Prim2SF y with
  | S754_finite sx mx ex, S754_finite _ my ey =>
      let e := Z.min ex ey in
      let X := (Z.pos mx * 2 ^ (ex - e))%Z in
      let Y := (Z.pos my * 2 ^ (ey - e))%Z in
      let f := Z.ldexp (of_uint63 (Uint63.of_Z (X mod Y))) e in
      if sx then - f else f
  | S754_zero _, S754_finite _ _ _ => x
  | S754_zero _, S754_infinity _ => x
  | S754_finite _ _ _, S754_infinity _ => x
  | _, _ => nan
  end.

(** Python's [vx % wx] on floats; [None] is [ZeroDivisionError].
[[
    mod = fmod(vx, wx);
    if (mod) { if ((wx < 0) != (mod < 0)) mod += wx; }
    else mod = copysign(0.0, wx);
]] *)
Definition float_rem (vx wx : float) : option float :=
  if wx =? 0 then None
  else
    let m := fmod vx wx in
    Some (if m =? 0 then (if wx <? 0 then neg_zero else zero)
          else if xorb (wx <? 0) (m <? 0) then m + wx else m).

(** [np.pi] and [2.0 * np.pi]. *)
Definition pi : float := 0x1.921fb54442d18p+1.
Definition two_pi : float := 2 * pi.


(** The heading stored by [set(x, y, orientation)]. *)
Definition set_orientation (o : float) : option float :=
  float_rem o two_pi.

(** The heading stored by [move] from the heading [o] and the [turn] it
    has computed. *)
Definition move_orientation (o turn : float) : option float :=
  float_rem (o + turn) two_pi.

(** [0 <= o < 2.0 * np.pi]. *)
Definition normalised (o : float) : bool := (0 <=? o) && (o <? two_pi).


End Binary64.

(** ** The heading under any rounding *)

(** The same remainder over the reals, with the one rounded operation of
    [%] made explicit: [rnd] is the rounding of the format, [tau] the
    modulus [2.0 * np.pi].  Numbers are finite. *)

Module Rounded.

Local Open Scope R_scope.

Section Format.

Variable rnd : R -> R.
Variable tau : R.

(** [fmod(a, b)] for a positive [b]: the remainder of the truncated
    division, with the sign of [a]; it is exact in every format. *)
Definition fmod (a b : R) : R :=
  if Rle_dec 0 a then Robot.pymod a b else - Robot.pymod (- a) b.

(** Python's [a % b] on floats: [mod += wx] is the one rounded step. *)
Definition float_rem (a b : R) : R :=
  let m := fmod a b in
  if Req_dec_T m 0 then 0
  else
    match Rlt_dec b 0, Rlt_dec m 0 with
    | left _, left _ => m
    | right _, right _ => m
    | _, _ => rnd (m + b)
    end.

(** The heading stored by [set]. *)
Definition set_orientation (o : R) : R := float_rem o tau.

(** The heading stored by [move]; the sum is rounded too. *)
Definition move_orientation (o turn : R) : R :=
  float_rem (rnd (o + turn)) tau.

(** The calls that write the heading: [set] with its angle, [move] with
    the turn it has computed. *)
Inductive call : Type :=
| CallSet (o : R)
| CallMove (turn : R).

Definition exec (c : call) (o : R) : R :=
  match c with
  | CallSet o' => set_orientation o'
  | CallMove turn => move_orientation o turn
  end.


End Format.

End Rounded.

(** ** The quantities [move] computes on its way *)

Module Motion.

Import Robot.
Local Open Scope R_scope.

(** [steering] after the two clamping tests of [move]. *)
Definition clamp_steering (steering max_steering_angle : R) : R :=
  let steering :=
    if Rlt_dec max_steering_angle steering then max_steering_angle
    else steering in
  if Rlt_dec steering (- max_steering_angle) then - max_steering_angle
  else steering.

(** [distance] after [if distance < 0.0: distance = 0.0]. *)
Definition clamp_distance (distance : R) : R :=
  if Rlt_dec distance 0 then 0 else distance.

(** [steering2] once noise and drift are applied: the first draw of the
    generator perturbs the steering. *)
Definition steering2 (steering max_steering_angle : R) (r : Robot)
    (g : rng) : R :=
  fst (gauss (clamp_steering steering max_steering_angle)
             (steering_noise r) g)
  + steering_drift r.

(** [distance2]: the second draw perturbs the distance. *)
Definition distance2 (distance : R) (r : Robot) (g : rng) : R :=
  fst (gauss (clamp_distance distance) (distance_noise r)
             (fun n => g (S n))).

(** [turn = np.tan(steering2) * distance2 / self.length]. *)
Definition turn (steering distance max_steering_angle : R) (r : Robot)
    (g : rng) : R :=
  tan (steering2 steering max_steering_angle r g)
  * distance2 distance r g / length r.

End Motion.

(** ** The controllers that drive the vehicle in the tests *)

Module Runner.

Import Robot.
Local Open Scope R_scope.

(** [robot.move(steer, speed)] with the default [tolerance] and
    [max_steering_angle]. *)
Definition drive (steer speed : R) (st : Robot * rng) : Robot * rng :=
  move steer speed default_tolerance default_max_steering_angle st.

(** The variables of a [run] loop: the vehicle (mutated in place), the
    previous cross-track error, its running sum, the two trajectories and
    the accumulated squared error. *)
Record loop_state : Type := mkLoop {
  vehicle : Robot * rng;
  cte_prev : R;
  cte_sum : R;
  x_trajectory : list R;
  y_trajectory : list R;
  err : R
}.

(** The variables before the loop: [cte_prev = robot.y], [cte_sum = 0.0],
    empty trajectories, [err = 0]. *)
Definition enter (st : Robot * rng) : loop_state :=
  {| vehicle := st; cte_prev := y (fst st); cte_sum := 0;
     x_trajectory := []; y_trajectory := []; err := 0 |}.

(** One pass of the loop of [run] in [test_p_conroller]:
    [steer = -tau * cte]. *)
Definition p_step (tau speed : R) (s : loop_state) (i : nat) : loop_state :=
  let cte := y (fst (vehicle s)) in
  let steer := - tau * cte in
  let st := drive steer speed (vehicle s) in
  {| vehicle := st; cte_prev := cte_prev s; cte_sum := cte_sum s;
     x_trajectory := x_trajectory s ++ [x (fst st)];
     y_trajectory := y_trajectory s ++ [y (fst st)];
     err := err s |}.

(** One pass of the loop of [run] in [test_pd_conroller]:
    [steer = -tau_p * cte - tau_d * cte_diff]. *)
Definition pd_step (tau_p tau_d speed : R) (s : loop_state) (i : nat)
    : loop_state :=
  let cte := y (fst (vehicle s)) in
  let cte_diff := cte - cte_prev s in
  let steer := - tau_p * cte - tau_d * cte_diff in
  let st := drive steer speed (vehicle s) in
  {| vehicle := st; cte_prev := cte; cte_sum := cte_sum s;
     x_trajectory := x_trajectory s ++ [x (fst st)];
     y_trajectory := y_trajectory s ++ [y (fst st)];
     err := err s |}.

(** One pass of the loop of [run] in [test_pid_conroller]:
    [steer = -tau_p * cte - tau_d * cte_diff - tau_i * cte_sum]. *)
Definition pid_step (tau_p tau_d tau_i speed : R) (s : loop_state)
    (i : nat) : loop_state :=
  let cte := y (fst (vehicle s)) in
  let cte_diff := cte - cte_prev s in
  let sum := cte_sum s + cte in
  let steer := - tau_p * cte - tau_d * cte_diff - tau_i * sum in
  let st := drive steer speed (vehicle s) in
  {| vehicle := st; cte_prev := cte; cte_sum := sum;
     x_trajectory := x_trajectory s ++ [x (fst st)];
     y_trajectory := y_trajectory s ++ [y (fst st)];
     err := err s |}.

(** [for i in range(n): step]. *)
Definition for_range (n : nat) (step : loop_state -> nat -> loop_state)
    (s : loop_state) : loop_state :=
  fold_left step (seq 0 n) s.

(** The three [run] functions of the controller tests; each returns the
    two trajectories and leaves the vehicle in its last state. *)
Definition run_p (tau : R) (n : nat) (speed : R) (st : Robot * rng)
    : loop_state :=
  for_range n (p_step tau speed) (enter st).

Definition run_pd (tau_p tau_d : R) (n : nat) (speed : R)
    (st : Robot * rng) : loop_state :=
  for_range n (pd_step tau_p tau_d speed) (enter st).

Definition run_pid (tau_p tau_d tau_i : R) (n : nat) (speed : R)
    (st : Robot * rng) : loop_state :=
  for_range n (pid_step tau_p tau_d tau_i speed) (enter st).

(** What the [run] of [test_parameter_optrimization] does: it returns its
    tuple, or raises. *)
Inductive outcome : Type :=
| Returns (xs ys : list R) (error : R)
| IndexError
| ZeroDivisionError.

(** One pass of that [run], for gains [params[0]], [params[1]],
    [params[2]]; the squared error is accumulated once [i >= n]. *)
Definition params_step (k0 k1 k2 : R) (n : nat) (speed : R)
    (s : loop_state) (i : nat) : loop_state :=
  let cte := y (fst (vehicle s)) in
  let diff_cte := cte - cte_prev s in
  let int_cte := cte_sum s + cte in
  let steer := - k0 * cte - k1 * diff_cte - k2 * int_cte in
  let st := drive steer speed (vehicle s) in
  {| vehicle := st; cte_prev := cte; cte_sum := int_cte;
     x_trajectory := x_trajectory s ++ [x (fst st)];
     y_trajectory := y_trajectory s ++ [y (fst st)];
     err := if (n <=? i)%nat then err s + cte * cte else err s |}.

(** The loop of that [run] over [range(2 * n)], for gains that are all
    there. *)
Definition params_loop (k0 k1 k2 : R) (n : nat) (speed : R)
    (st : Robot * rng) : loop_state :=
  for_range (2 * n) (params_step k0 k1 k2 n speed) (enter st).

(** [run(robot, params, n, speed)]: with [n = 0] the loop body never runs
    and [err / n] divides by zero; otherwise the first pass reads
    [params[0]], [params[1]] and [params[2]] and raises [IndexError] when
    the list is too short. *)
Definition run (params : list R) (n : nat) (speed : R) (st : Robot * rng)
    : outcome :=
  match n with
  | O => ZeroDivisionError
  | S _ =>
      match params with
      | k0 :: k1 :: k2 :: _ =>
          let s := params_loop k0 k1 k2 n speed st in
          Returns (x_trajectory s) (y_trajectory s) (err s / INR n)
      | _ => IndexError
      end
  end.

(** [make_robot()]: a fresh vehicle at (0, 1, 0) with a steering drift of
    10 degrees. *)
Definition make_robot : Robot :=
  set_steering_drift (10 / 180 * PI) (set 0 1 0 (init 20)).

End Runner.

(** ** Sample objectives, used to run the optimisers on concrete inputs *)

Module Samples.

Local Open Scope Q_scope.

(** [lambda x, args: -x]. *)
Definition descending (v : Q) (_ : unit) : Q := - v.

(** [lambda x, args: x]. *)
Definition ascending (v : Q) (_ : unit) : Q := v.

(** [lambda x, args: 0.0]. *)
Definition flat (v : Q) (_ : unit) : Q := 0.

(** [lambda x, args: -(x - 3) ** 2], with its maximum at 3. *)
Definition parabola (v : Q) (_ : unit) : Q := - ((v - 3) * (v - 3)).

(** An error for the vector search, least at [[2, 0, 0]]. *)
Definition bowl (l : list Q) : Q :=
  (nth 0 l 0 - 2) * (nth 0 l 0 - 2) + nth 1 l 0 * nth 1 l 0
  + nth 2 l 0 * nth 2 l 0.

(** An error for the vector search, least where the first parameter
    is 1. *)
Definition ridge (l : list Q) : Q :=
  (nth 0 l 0 - 1) * (nth 0 l 0 - 1).

End Samples.

(** * Properties of the vehicle *)

Module RobotFacts.

Import Robot.
Local Open Scope R_scope.

Lemma two_pi_pos : 0 < two_pi.
Proof. unfold two_pi. pose proof PI_RGT_0. lra. Qed.

(** The remainder by a positive divisor lies between 0 and the divisor. *)
Lemma pymod_range (a b : R) : 0 < b -> 0 <= pymod a b < b.
Proof.
  intros Hb. unfold pymod.
  destruct (base_Int_part (a / b)) as [Hlo Hhi].
  set (k := IZR (Int_part (a / b))) in *.
  assert (Ha : a - b * k = b * (a / b - k)) by (field; lra).
  rewrite Ha.
  split.
  - apply Rmult_le_pos; lra.
  - assert (b * (a / b - k) < b * 1) by (apply Rmult_lt_compat_l; lra).
    lra.
Qed.

(** A value already in range is its own remainder. *)
Lemma pymod_small (a b : R) : 0 <= a < b -> pymod a b = a.
Proof.
  intros [Hlo Hhi]. unfold pymod.
  assert (Hb : 0 < b) by lra.
  assert (Hq : 0 <= a / b < 1).
  { split.
    - apply Rmult_le_pos; [lra | left; apply Rinv_0_lt_compat; lra].
    - apply Rmult_lt_reg_r with b; [lra |].
      replace (a / b * b) with a by (field; lra). lra. }
  rewrite <- (Int_part_spec (a / b) 0%Z).
  - simpl. ring.
  - simpl. lra.
Qed.

Lemma pymod_two_pi_normalised (a : R) : normalised (pymod a two_pi).
Proof. apply pymod_range, two_pi_pos. Qed.

(** With a zero standard deviation [gauss] hands back the mean, whatever
    the generator holds. *)
Lemma gauss_zero_sigma (mu : R) (g : rng) : fst (gauss mu 0 g) = mu.
Proof. unfold gauss; simpl. ring. Qed.

(** [move] normalises the heading in its straight-line branch and in its
    bicycle branch alike. *)
Lemma move_normalised (s d t m : R) (st : Robot * rng) :
  normalised (orientation (fst (move s d t m st))).
Proof.
  destruct st as [r g]. unfold move, gauss.
  match goal with
  | |- context [Rlt_dec (Rabs ?turn) t] => destruct (Rlt_dec (Rabs turn) t)
  end; simpl; apply pymod_two_pi_normalised.
Qed.

Lemma set_normalised (x0 y0 o : R) (r : Robot) :
  normalised (orientation (set x0 y0 o r)).
Proof. simpl. apply pymod_two_pi_normalised. Qed.

Lemma exec_normalised (c : call) (st : Robot * rng) :
  normalised (orientation (fst st)) ->
  normalised (orientation (fst (exec c st))).
Proof.
  intros H. destruct c; simpl; auto.
  - apply move_normalised.
  - apply pymod_two_pi_normalised.
Qed.

Lemma states_normalised (cs : list call) (st : Robot * rng) :
  normalised (orientation (fst st)) ->
  Forall (fun st' => normalised (orientation (fst st'))) (states cs st).
Proof.
  revert st. induction cs as [| c cs IH]; intros st H; simpl.
  - constructor.
  - constructor.
    + now apply exec_normalised.
    + apply IH. now apply exec_normalised.
Qed.

(** [move] never touches the noise and drift parameters or the length. *)
Lemma move_parameters (s d t m : R) (st : Robot * rng) :
  let r' := fst (move s d t m st) in
  length r' = length (fst st) /\
  steering_noise r' = steering_noise (fst st) /\
  distance_noise r' = distance_noise (fst st) /\
  steering_drift r' = steering_drift (fst st).
Proof.
  destruct st as [r g]. unfold move, gauss.
  match goal with
  | |- context [Rlt_dec (Rabs ?turn) t] => destruct (Rlt_dec (Rabs turn) t)
  end; simpl; auto.
Qed.

(** Without noise the vehicle reached by [move] does not depend on the
    generator. *)
Lemma move_zero_noise (s d t m : R) (r : Robot) (g1 g2 : rng) :
  steering_noise r = 0 -> distance_noise r = 0 ->
  fst (move s d t m (r, g1)) = fst (move s d t m (r, g2)).
Proof.
  intros Hs Hd. unfold move, gauss. rewrite Hs, Hd.
  rewrite !Rmult_0_r.
  match goal with
  | |- context [Rlt_dec (Rabs ?turn) t] => destruct (Rlt_dec (Rabs turn) t)
  end; reflexivity.
Qed.

(** One straight-ahead step: no steering, no drift, no noise. *)
Lemma move_straight (d t m : R) (r : Robot) (g : rng) :
  steering_noise r = 0 -> distance_noise r = 0 -> steering_drift r = 0 ->
  normalised (orientation r) -> 0 < t -> 0 <= m ->
  let dd := if Rlt_dec d 0 then 0 else d in
  let r' := fst (move 0 d t m (r, g)) in
  x r' = x r + dd * cos (orientation r) /\
  y r' = y r + dd * sin (orientation r) /\
  orientation r' = orientation r.
Proof.
  intros Hs Hd Hdr Hn Ht Hm dd r'. subst r'. unfold move, gauss.
  rewrite Hs, Hd, Hdr.
  destruct (Rlt_dec m 0) as [Hm0 | _]; [lra |].
  destruct (Rlt_dec 0 (- m)) as [Hm1 | _]; [lra |].
  rewrite !Rmult_0_r, !Rplus_0_r, tan_0.
  replace (0 * (if Rlt_dec d 0 then 0 else d) / length r) with 0
    by (unfold Rdiv; ring).
  rewrite Rabs_R0.
  destruct (Rlt_dec 0 t) as [_ | Hc]; [| lra].
  simpl. rewrite Rplus_0_r, (pymod_small _ _ Hn). auto.
Qed.

Lemma repeat_move_straight (n : nat) (d t m : R) (r : Robot) (g : rng) :
  steering_noise r = 0 -> distance_noise r = 0 -> steering_drift r = 0 ->
  normalised (orientation r) -> 0 < t -> 0 <= m ->
  let dd := if Rlt_dec d 0 then 0 else d in
  let r' := fst (repeat_move n 0 d t m (r, g)) in
  x r' = x r + INR n * dd * cos (orientation r) /\
  y r' = y r + INR n * dd * sin (orientation r) /\
  orientation r' = orientation r.
Proof.
  revert r g. induction n as [| n IH]; intros r g Hs Hd Hdr Hn Ht Hm dd r'.
  - subst r'. simpl. repeat split; ring.
  - subst r'. cbn [repeat_move].
    destruct (move_straight d t m r g Hs Hd Hdr Hn Ht Hm) as (Hx & Hy & Ho).
    destruct (move_parameters 0 d t m (r, g)) as (_ & Ps & Pd & Pdr).
    cbn [fst] in Ps, Pd, Pdr.
    destruct (move 0 d t m (r, g)) as [r1 g1] eqn:E. cbn [fst] in *.
    rewrite Hs in Ps. rewrite Hd in Pd. rewrite Hdr in Pdr.
    assert (Hn1 : normalised (orientation r1)) by (rewrite Ho; exact Hn).
    destruct (IH r1 g1 Ps Pd Pdr Hn1 Ht Hm) as (Ix & Iy & Io).
    rewrite Ix, Iy, Io, Hx, Hy, Ho, S_INR. fold dd.
    repeat split; ring.
Qed.

(** In exact arithmetic the heading is reduced into the interval from 0
    (included) to 2 pi (excluded) by every call that writes it: by [move],
    whichever of its two branches runs, and by [set]; so it lies in that
    interval after every call of every sequence of calls on a vehicle.
    What rounding does to the upper end is settled in [HeadingFacts]. *)
Theorem orientation_normalised_after_every_call :
  (forall (s d t m : R) (st : Robot * rng),
      normalised (orientation (fst (move s d t m st)))) /\
  (forall (x0 y0 o : R) (r : Robot),
      normalised (orientation (set x0 y0 o r))) /\
  (forall (len : R) (g : rng) (cs : list call),
      Forall (fun st => normalised (orientation (fst st)))
             (states cs (init len, g))).
Proof.
  split; [| split].
  - exact move_normalised.
  - exact set_normalised.
  - intros len g cs. apply states_normalised. simpl.
    split; [lra | apply two_pi_pos].
Qed.

(** C7.  With both noise parameters at zero, two runs of the same list of
    (steering, distance) commands from the same vehicle state produce the
    same pose after every step, whatever the two random generators hold:
    a draw with standard deviation zero is the mean. *)
Theorem zero_noise_determinism (cmds : list (R * R)) (r : Robot)
    (g1 g2 : rng) :
  steering_noise r = 0 -> distance_noise r = 0 ->
  trajectory cmds (r, g1) = trajectory cmds (r, g2) /\
  (forall mu g, fst (gauss mu 0 g) = mu).
Proof.
  intros Hs Hd. split; [| exact gauss_zero_sigma].
  revert r g1 g2 Hs Hd.
  induction cmds as [| [s d] cmds IH]; intros r g1 g2 Hs Hd.
  - reflexivity.
  - cbn [trajectory].
    pose proof (move_zero_noise s d default_tolerance
                  default_max_steering_angle r g1 g2 Hs Hd) as E.
    destruct (move_parameters s d default_tolerance
                default_max_steering_angle (r, g1)) as (_ & Ps & Pd & _).
    cbn [fst] in Ps, Pd.
    destruct (move s d default_tolerance default_max_steering_angle (r, g1))
      as [r1 h1].
    destruct (move s d default_tolerance default_max_steering_angle (r, g2))
      as [r2 h2].
    cbn [fst] in *. subst r2. f_equal.
    apply IH; congruence.
Qed.

Lemma zero_noise_determinism_witness :
  trajectory [(1 / 10, 1); (- 1 / 10, 2)] (init 20, constant_draws 0)
  = trajectory [(1 / 10, 1); (- 1 / 10, 2)] (init 20, constant_draws 1) /\
  (forall mu g, fst (gauss mu 0 g) = mu).
Proof.
  apply zero_noise_determinism; reflexivity.
Defined.

(** C8, as written, fails: a vehicle set to the pose (0, 0, pi/2), with no
    noise and no drift, commanded [move(0, 1)], ends at y = 1 and x = 0, so
    y has changed and x has not grown by the distance. *)
Lemma straight_line_counterexample :
  let r := set 0 0 (PI / 2) (init 20) in
  let r' := fst (move 0 1 default_tolerance default_max_steering_angle
                   (r, constant_draws 0)) in
  steering_noise r = 0 /\ distance_noise r = 0 /\ steering_drift r = 0 /\
  y r' = 1 /\ y r = 0 /\ x r' = 0 /\ x r + 1 = 1.
Proof.
  intros r r'.
  assert (Ho : orientation r = PI / 2).
  { unfold r. simpl. apply pymod_small. unfold two_pi.
    pose proof PI_RGT_0. lra. }
  assert (Hn : normalised (orientation r)).
  { rewrite Ho. unfold normalised, two_pi. pose proof PI_RGT_0. lra. }
  assert (Ht : 0 < default_tolerance) by (unfold default_tolerance; lra).
  assert (Hm : 0 <= default_max_steering_angle).
  { unfold default_max_steering_angle. pose proof PI4_RGT_0. lra. }
  destruct (move_straight 1 default_tolerance default_max_steering_angle
              r (constant_draws 0) eq_refl eq_refl eq_refl Hn Ht Hm)
    as (Hx & Hy & _).
  rewrite Ho, cos_PI2 in Hx. rewrite Ho, sin_PI2 in Hy.
  destruct (Rlt_dec 1 0) as [Hc | _]; [lra |].
  subst r'. rewrite Hx, Hy. simpl.
  repeat split; try reflexivity; ring.
Qed.

(** C8, amended.  With steering 0, no drift and no noise, [n] calls of
    [move] with distance [d] leave the heading unchanged and carry the
    vehicle along it: x grows by [n * d * cos heading] and y by
    [n * d * sin heading], a negative [d] counting as 0; when the heading
    is 0, y is unchanged and x grows by exactly [d] per call. *)
Theorem straight_line_along_heading (n : nat) (d t m : R) (r : Robot)
    (g : rng) :
  steering_noise r = 0 -> distance_noise r = 0 -> steering_drift r = 0 ->
  normalised (orientation r) -> 0 < t -> 0 <= m ->
  let dd := if Rlt_dec d 0 then 0 else d in
  let r' := fst (repeat_move n 0 d t m (r, g)) in
  orientation r' = orientation r /\
  x r' = x r + INR n * dd * cos (orientation r) /\
  y r' = y r + INR n * dd * sin (orientation r) /\
  (orientation r = 0 -> y r' = y r /\ x r' = x r + INR n * dd).
Proof.
  intros Hs Hd Hdr Hn Ht Hm dd r'.
  destruct (repeat_move_straight n d t m r g Hs Hd Hdr Hn Ht Hm)
    as (Hx & Hy & Ho).
  fold dd in Hx, Hy. fold r' in Hx, Hy, Ho.
  repeat split; auto.
  - rewrite Hy, H, sin_0. ring.
  - rewrite Hx, H, cos_0. ring.
Qed.

Lemma straight_line_along_heading_witness :
  let r := init 20 in
  let dd := if Rlt_dec 1 0 then 0 else 1 in
  let r' := fst (repeat_move 3 0 1 default_tolerance
                   default_max_steering_angle (r, constant_draws 0)) in
  orientation r' = orientation r /\
  x r' = x r + INR 3 * dd * cos (orientation r) /\
  y r' = y r + INR 3 * dd * sin (orientation r) /\
  (orientation r = 0 -> y r' = y r /\ x r' = x r + INR 3 * dd).
Proof.
  apply straight_line_along_heading.
  - reflexivity.
  - reflexivity.
  - reflexivity.
  - simpl. split; [lra | apply two_pi_pos].
  - unfold default_tolerance; lra.
  - unfold default_max_steering_angle. pose proof PI4_RGT_0. lra.
Defined.

End RobotFacts.

(** * Properties of the single-parameter optimiser *)

Module TwiddleFacts.

Import Twiddle Samples Lqa.
Local Open Scope Q_scope.

Ltac qhalf := unfold Qdiv in *; change (/ 2) with (1 # 2) in *.

Lemma Qlt_bool_true (a b : Q) : Qlt_bool a b = true <-> a < b.
Proof.
  unfold Qlt_bool. rewrite negb_true_iff, <- not_true_iff_false, Qle_bool_iff.
  split; [apply Qnot_le_lt | apply Qlt_not_le].
Qed.

Lemma Qlt_bool_false (a b : Q) : Qlt_bool a b = false <-> b <= a.
Proof.
  unfold Qlt_bool. rewrite negb_false_iff. apply Qle_bool_iff.
Qed.

Section Objective.

Variable A : Type.
Variable objFunction : Q -> A -> Q.
Variable args : A.

Abbreviation evaluate := (evaluate A objFunction args).
Abbreviation start := (start A objFunction args).
Abbreviation body := (body A objFunction args).
Abbreviation loop := (loop A objFunction args).
Abbreviation final := (final A objFunction args).
Abbreviation twiddle := (twiddle A objFunction args).
Abbreviation iterate := (iterate A objFunction args).

(** *** The loop and its iterates *)

Lemma iterate_succ (n : nat) (domain : bound * bound) (s : search) :
  iterate (S n) domain s = body domain (iterate n domain s).
Proof.
  revert s. induction n as [| n IH]; intros s.
  - reflexivity.
  - change (iterate (S (S n)) domain s)
      with (iterate (S n) domain (body domain s)).
    rewrite IH. reflexivity.
Qed.

(** A loop that ends has run the body some number of times, the condition
    holding before each pass and failing at the end. *)
Lemma loop_some (fuel : nat) (tolerance : Q) (domain : bound * bound)
    (s s' : search) :
  loop fuel tolerance domain s = Some s' ->
  exists n, (n <= fuel)%nat /\ s' = iterate n domain s /\
            delta s' <= tolerance /\
            forall k, (k < n)%nat -> tolerance < delta (iterate k domain s).
Proof.
  revert s. induction fuel as [| fuel IH]; intros s H; simpl in H.
  - destruct (Qlt_bool tolerance (delta s)) eqn:E; [discriminate |].
    injection H as <-. exists 0%nat. repeat split; auto.
    + now apply Qlt_bool_false.
    + intros k Hk. lia.
  - destruct (Qlt_bool tolerance (delta s)) eqn:E.
    + destruct (IH _ H) as (n & Hn & Hs & Hd & Hk).
      exists (S n). repeat split; auto.
      * lia.
      * intros [| k] Hlt; simpl.
        -- now apply Qlt_bool_true.
        -- apply Hk. lia.
    + injection H as <-. exists 0%nat. repeat split; auto.
      * lia.
      * now apply Qlt_bool_false.
      * intros k Hk. lia.
Qed.

(** Conversely, enough fuel reaches the first iterate that fails the
    condition. *)
Lemma loop_reaches (n : nat) (tolerance : Q) (domain : bound * bound)
    (s : search) (fuel : nat) :
  (forall k, (k < n)%nat -> tolerance < delta (iterate k domain s)) ->
  delta (iterate n domain s) <= tolerance ->
  (n <= fuel)%nat ->
  loop fuel tolerance domain s = Some (iterate n domain s).
Proof.
  revert s fuel. induction n as [| n IH]; intros s fuel Hk Hd Hf.
  - simpl in Hd. apply Qlt_bool_false in Hd.
    destruct fuel; simpl; rewrite Hd; reflexivity.
  - destruct fuel as [| fuel]; [lia |].
    simpl. assert (E : Qlt_bool tolerance (delta s) = true).
    { apply Qlt_bool_true. apply (Hk 0%nat). lia. }
    rewrite E. apply IH.
    + intros k Hlt. apply (Hk (S k)). lia.
    + exact Hd.
    + lia.
Qed.

(** *** The memo and the call log *)

(** The log holds no input twice, and an input is in the log exactly when
    the memo has a score for it. *)
Definition memo_agrees (m : memo) (log : list Q) : Prop :=
  NoDupA Qeq log /\ forall v, InA Qeq v log <-> lookup v m <> None.

Lemma evaluate_hit (v s : Q) (m : memo) (log : list Q) :
  lookup v m = Some s -> evaluate v m log = (s, m, log).
Proof. intros H. unfold Twiddle.evaluate. rewrite H. reflexivity. Qed.

Lemma evaluate_miss (v : Q) (m : memo) (log : list Q) :
  lookup v m = None ->
  evaluate v m log
  = (objFunction v args, (v, objFunction v args) :: m, v :: log).
Proof. intros H. unfold Twiddle.evaluate. rewrite H. reflexivity. Qed.

Lemma evaluate_agrees (v : Q) (m : memo) (log : list Q) :
  memo_agrees m log ->
  memo_agrees (snd (fst (evaluate v m log))) (snd (evaluate v m log)).
Proof.
  intros [Hnd Hkeys]. destruct (lookup v m) as [s |] eqn:E.
  - rewrite (evaluate_hit _ _ _ _ E). simpl. split; assumption.
  - rewrite (evaluate_miss _ _ _ E). simpl. split.
    + constructor; [| exact Hnd].
      intros Hin. apply Hkeys in Hin. congruence.
    + intros u. simpl. destruct (Qeq_bool u v) eqn:Euv.
      * split; [discriminate |].
        intros _. left. now apply Qeq_bool_iff.
      * rewrite <- Hkeys. split.
        -- intros Hin. inversion Hin as [? ? Heq | ? ? Hin']; subst.
           ++ apply Qeq_bool_iff in Heq. congruence.
           ++ exact Hin'.
        -- intros Hin. now right.
Qed.

Lemma start_agrees (init : Q) :
  memo_agrees (pastCalls (start init)) (calls (start init)).
Proof.
  simpl. split.
  - constructor; [| constructor]. intros H. inversion H.
  - intros v. simpl. destruct (Qeq_bool v init) eqn:E.
    + split; [discriminate |]. intros _. left. now apply Qeq_bool_iff.
    + split; [| congruence]. intros H.
      inversion H as [? ? Heq | ? ? H']; subst.
      * apply Qeq_bool_iff in Heq. congruence.
      * inversion H'.
Qed.

Lemma body_agrees (domain : bound * bound) (s : search) :
  memo_agrees (pastCalls s) (calls s) ->
  memo_agrees (pastCalls (body domain s)) (calls (body domain s)).
Proof.
  intros H. unfold Twiddle.body.
  pose proof (evaluate_agrees (x s + up_delta domain s) _ _ H) as H1.
  destruct (evaluate (x s + up_delta domain s) (pastCalls s) (calls s))
    as [[score1 m1] log1].
  simpl in H1.
  destruct (Qlt_bool (bestScore s) score1); [exact H1 |].
  match goal with
  | |- context [Twiddle.evaluate _ _ _ ?v m1 log1] =>
      pose proof (evaluate_agrees v _ _ H1) as H2;
      destruct (evaluate v m1 log1) as [[score2 m2] log2]
  end.
  simpl in H2.
  destruct (Qlt_bool (bestScore s) score2); exact H2.
Qed.

Lemma iterate_agrees (n : nat) (domain : bound * bound) (s : search) :
  memo_agrees (pastCalls s) (calls s) ->
  memo_agrees (pastCalls (iterate n domain s)) (calls (iterate n domain s)).
Proof.
  revert s. induction n as [| n IH]; intros s H; simpl.
  - exact H.
  - apply IH. now apply body_agrees.
Qed.

(** C10.  When [tolerance] is at least the initial step 0.1, the loop body
    is never entered: [twiddle] reaches its [return] in the state set up
    before the loop, having called the objective once, at [init], and
    returns [init] with the objective's value there. *)
Theorem large_tolerance_returns_init (fuel : nat) (init tolerance : Q)
    (domain : bound * bound) :
  1 # 10 <= tolerance ->
  final fuel init tolerance domain = Some (start init) /\
  calls (start init) = [init] /\
  twiddle fuel init tolerance domain
  = Some {| parameter := init; score := objFunction init args |}.
Proof.
  intros Htol.
  assert (E : final fuel init tolerance domain = Some (start init)).
  { unfold Twiddle.final.
    assert (C : Qlt_bool tolerance (delta (start init)) = false)
      by (apply Qlt_bool_false; exact Htol).
    destruct fuel; simpl; simpl in C; rewrite C; reflexivity. }
  split; [exact E |]. split; [reflexivity |].
  unfold Twiddle.twiddle. rewrite E. reflexivity.
Qed.

(** C6.  After any number of passes through the loop body, the log of the
    inputs on which the objective was invoked, the first call at [init]
    included, holds no number twice, and a number is in the log exactly
    when the memo has a score for it: the objective runs only on an input
    the memo misses.  The same holds for the state in which [twiddle]
    returns. *)
Theorem objective_never_called_twice (init : Q) (domain : bound * bound)
    (n : nat) :
  let s := iterate n domain (start init) in
  NoDupA Qeq (calls s) /\
  (forall v, InA Qeq v (calls s) <-> lookup v (pastCalls s) <> None) /\
  (forall fuel tolerance s',
      final fuel init tolerance domain = Some s' -> NoDupA Qeq (calls s')).
Proof.
  intros s. destruct (iterate_agrees n domain _ (start_agrees init))
    as [Hnd Hkeys].
  split; [exact Hnd |]. split; [exact Hkeys |].
  intros fuel tolerance s' Hf.
  destruct (loop_some _ _ _ _ _ Hf) as (k & _ & -> & _).
  apply (iterate_agrees k domain _ (start_agrees init)).
Qed.

(** *** The probes and the domain guards *)

Lemma body_unfold (domain : bound * bound) (s : search) :
  body domain s =
  let d1 := up_delta domain s in
  let x1 := up_probe domain s in
  let '(score1, m1, log1) := evaluate x1 (pastCalls s) (calls s) in
  if Qlt_bool (bestScore s) score1 then
    mkSearch x1 (d1 * 2) score1 m1 log1
  else
    let d2 := down_delta domain s in
    let x2 := down_probe domain s in
    let '(score2, m2, log2) := evaluate x2 m1 log1 in
    if Qlt_bool (bestScore s) score2 then
      mkSearch x2 (d2 * 2) score2 m2 log2
    else
      mkSearch (x2 + d2) (d2 * (1 # 2)) (bestScore s) m2 log2.
Proof. reflexivity. Qed.

Lemma evaluate_log (v : Q) (m : memo) (log : list Q) :
  snd (evaluate v m log) = log \/ snd (evaluate v m log) = v :: log.
Proof.
  unfold Twiddle.evaluate. destruct (lookup v m); simpl; auto.
Qed.

(** The only inputs a pass evaluates are its two probe points. *)
Lemma body_calls (domain : bound * bound) (s : search) (v : Q) :
  In v (calls (body domain s)) ->
  In v (calls s) \/ v = up_probe domain s \/ v = down_probe domain s.
Proof.
  rewrite body_unfold. cbv zeta.
  pose proof (evaluate_log (up_probe domain s) (pastCalls s) (calls s)) as L1.
  destruct (evaluate (up_probe domain s) (pastCalls s) (calls s))
    as [[score1 m1] log1].
  simpl in L1.
  assert (H1 : In v log1 ->
               In v (calls s) \/ v = up_probe domain s
               \/ v = down_probe domain s).
  { destruct L1 as [-> | ->]; simpl; intuition. }
  destruct (Qlt_bool (bestScore s) score1); [exact H1 |].
  pose proof (evaluate_log (down_probe domain s) m1 log1) as L2.
  destruct (evaluate (down_probe domain s) m1 log1) as [[score2 m2] log2].
  simpl in L2.
  assert (H2 : In v log2 ->
               In v (calls s) \/ v = up_probe domain s
               \/ v = down_probe domain s).
  { destruct L2 as [-> | ->]; simpl; intuition. }
  destruct (Qlt_bool (bestScore s) score2); exact H2.
Qed.

(** When the upper guard fires the upward probe is the midpoint of [x] and
    the upper bound. *)
Lemma up_probe_midpoint (l : bound) (h : Q) (s : search) :
  x s <= h -> above (x s + delta s) (Some h) = true ->
  up_probe (l, Some h) s == (x s + h) / 2.
Proof.
  intros Hx Hg. unfold up_probe, up_delta. cbn [snd]. rewrite Hg.
  unfold half_gap. rewrite Qabs_pos by lra. qhalf. lra.
Qed.

Lemma up_probe_below_bound (l : bound) (h : Q) (s : search) :
  x s <= h -> above (up_probe (l, Some h) s) (Some h) = false.
Proof.
  intros Hx. simpl. apply Qlt_bool_false.
  destruct (above (x s + delta s) (Some h)) eqn:Hg.
  - rewrite (up_probe_midpoint l h s Hx Hg). qhalf. lra.
  - unfold up_probe, up_delta. cbn [snd]. rewrite Hg.
    simpl in Hg. now apply Qlt_bool_false in Hg.
Qed.

(** When the lower guard fires the downward probe is the lower bound,
    provided the upward probe was not below it. *)
Lemma down_probe_on_bound (l : Q) (h : bound) (s : search) :
  below (up_probe (Some l, h) s - up_delta (Some l, h) s) (Some l) = true ->
  l <= up_probe (Some l, h) s ->
  down_probe (Some l, h) s == l.
Proof.
  intros Hg Hx. unfold down_probe, down_delta. cbn [fst]. rewrite Hg.
  unfold half_gap. rewrite Qabs_neg by lra. qhalf. lra.
Qed.

(** The lower guard compares the value the pass started from, not the
    downward probe, with the lower bound. *)
Lemma lower_guard_tests_start (domain : bound * bound) (s : search) :
  up_probe domain s - up_delta domain s == x s.
Proof. unfold up_probe. lra. Qed.

(** *** The step size *)

Lemma half_gap_nonneg (b : bound) (v : Q) : 0 <= half_gap b v.
Proof.
  destruct b as [q |]; unfold half_gap; [| lra].
  pose proof (Qabs_nonneg (q - v)). qhalf. lra.
Qed.

Lemma up_delta_nonneg (domain : bound * bound) (s : search) :
  0 <= delta s -> 0 <= up_delta domain s.
Proof.
  intros H. unfold up_delta.
  destruct (above _ _); [apply half_gap_nonneg | exact H].
Qed.

Lemma down_delta_nonneg (domain : bound * bound) (s : search) :
  0 <= delta s -> 0 <= down_delta domain s.
Proof.
  intros H. unfold down_delta.
  destruct (below _ _); [apply half_gap_nonneg | now apply up_delta_nonneg].
Qed.

(** C3, amended.  For a domain with a finite upper bound [h], a value
    [x <= h] and a step [delta >= 0]: when the upward probe [x + delta]
    would exceed [h], the step is shrunk to half the distance from [x] to
    [h], so that the probe lands midway between [x] and [h]; otherwise the
    probe is [x + delta]; in both cases neither the upward nor the downward
    probe exceeds [h], and since these two probes are the only points a
    pass evaluates, no point it evaluates exceeds [h]. *)
Theorem upward_probe_clamping (l : bound) (h : Q) (s : search) :
  x s <= h -> 0 <= delta s ->
  let domain := (l, Some h) in
  (above (x s + delta s) (Some h) = true ->
   up_delta domain s == (h - x s) / 2 /\
   up_probe domain s == (x s + h) / 2) /\
  (above (x s + delta s) (Some h) = false ->
   up_delta domain s = delta s /\ up_probe domain s = x s + delta s) /\
  up_probe domain s <= h /\
  down_probe domain s <= h /\
  (forall v, In v (calls (body domain s)) ->
             In v (calls s) \/ v = up_probe domain s
             \/ v = down_probe domain s) /\
  (forall v, In v (calls (body domain s)) -> In v (calls s) \/ v <= h).
Proof.
  intros Hx Hd domain.
  assert (Hup : up_probe domain s <= h).
  { pose proof (up_probe_below_bound l h s Hx) as H. simpl in H.
    now apply Qlt_bool_false in H. }
  assert (Hdown : down_probe domain s <= h).
  { pose proof (down_delta_nonneg domain s Hd). unfold down_probe. lra. }
  split; [| split; [| split; [| split; [| split]]]]; auto.
  - intros Hg. split; [| now apply up_probe_midpoint].
    unfold up_delta, domain. cbn [snd]. rewrite Hg. unfold half_gap.
    rewrite Qabs_pos by lra. reflexivity.
  - intros Hg. unfold up_probe, up_delta, domain. cbn [snd].
    rewrite Hg. split; reflexivity.
  - apply body_calls.
  - intros v Hin.
    destruct (body_calls _ _ _ Hin) as [H | [-> | ->]]; auto.
Qed.

(** A pass doubles the step in force at a successful probe and halves the
    one in force after two failed probes. *)
Lemma body_delta (domain : bound * bound) (s : search) :
  let s' := body domain s in
  if Qlt_bool (bestScore s) (bestScore s') then
    delta s' == up_delta domain s * 2 \/ delta s' == down_delta domain s * 2
  else delta s' == down_delta domain s * (1 # 2).
Proof.
  rewrite body_unfold. cbv zeta.
  destruct (evaluate (up_probe domain s) (pastCalls s) (calls s))
    as [[score1 m1] log1].
  destruct (Qlt_bool (bestScore s) score1) eqn:E1.
  - simpl. rewrite E1. left. reflexivity.
  - destruct (evaluate (down_probe domain s) m1 log1) as [[score2 m2] log2].
    destruct (Qlt_bool (bestScore s) score2) eqn:E2.
    + simpl. rewrite E2. right. reflexivity.
    + simpl.
      assert (F : Qlt_bool (bestScore s) (bestScore s) = false)
        by (apply Qlt_bool_false; lra).
      rewrite F. reflexivity.
Qed.

(** The score the memoised evaluation hands back for the upward probe,
    and whether it beats [bestScore]. *)
Definition up_score (domain : bound * bound) (s : search) : Q :=
  fst (fst (evaluate (up_probe domain s) (pastCalls s) (calls s))).

Definition up_improves (domain : bound * bound) (s : search) : bool :=
  Qlt_bool (bestScore s) (up_score domain s).

(** The same for the downward probe, evaluated after the upward one. *)
Definition down_score (domain : bound * bound) (s : search) : Q :=
  let '(_, m1, log1) :=
    evaluate (up_probe domain s) (pastCalls s) (calls s) in
  fst (fst (evaluate (down_probe domain s) m1 log1)).

Definition down_improves (domain : bound * bound) (s : search) : bool :=
  Qlt_bool (bestScore s) (down_score domain s).

(** The score of the upward probe is the memo's entry for it, or else the
    objective's value there. *)
Lemma up_score_value (domain : bound * bound) (s : search) :
  up_score domain s =
  match lookup (up_probe domain s) (pastCalls s) with
  | Some v => v
  | None => objFunction (up_probe domain s) args
  end.
Proof.
  unfold up_score, Twiddle.evaluate.
  destruct (lookup (up_probe domain s) (pastCalls s)); reflexivity.
Qed.

(** What a pass does, case by case: after a successful upward probe it
    keeps the upward point and doubles the upward step; after a failed
    upward and a successful downward probe it keeps the downward point and
    doubles the downward step; after two failed probes it steps back by
    the downward step, halves that step and keeps [bestScore]. *)
Lemma body_step (domain : bound * bound) (s : search) :
  let s' := body domain s in
  delta s' =
    (if up_improves domain s then up_delta domain s * 2
     else if down_improves domain s then down_delta domain s * 2
     else down_delta domain s * (1 # 2)) /\
  x s' =
    (if up_improves domain s then up_probe domain s
     else if down_improves domain s then down_probe domain s
     else down_probe domain s + down_delta domain s) /\
  bestScore s' =
    (if up_improves domain s then up_score domain s
     else if down_improves domain s then down_score domain s
     else bestScore s).
Proof.
  rewrite body_unfold. unfold up_improves, down_improves, up_score,
    down_score. cbv zeta.
  destruct (evaluate (up_probe domain s) (pastCalls s) (calls s))
    as [[score1 m1] log1].
  cbn [fst]. destruct (Qlt_bool (bestScore s) score1).
  - repeat split.
  - destruct (evaluate (down_probe domain s) m1 log1) as [[score2 m2] log2].
    cbn [fst]. destruct (Qlt_bool (bestScore s) score2); repeat split.
Qed.

Lemma body_delta_nonneg (domain : bound * bound) (s : search) :
  0 <= delta s -> 0 <= delta (body domain s).
Proof.
  intros H. pose proof (body_delta domain s) as B. cbv zeta in B.
  pose proof (up_delta_nonneg domain s H).
  pose proof (down_delta_nonneg domain s H).
  destruct (Qlt_bool _ _); [destruct B as [B | B] |]; rewrite B; lra.
Qed.

Lemma iterate_delta_nonneg (n : nat) (domain : bound * bound) (s : search) :
  0 <= delta s -> 0 <= delta (iterate n domain s).
Proof.
  revert s. induction n as [| n IH]; intros s H; simpl.
  - exact H.
  - apply IH. now apply body_delta_nonneg.
Qed.

(** On the unbounded default domain no guard fires. *)
Lemma unbounded_deltas (s : search) :
  up_delta unbounded s = delta s /\ down_delta unbounded s = delta s.
Proof. split; reflexivity. Qed.

Lemma body_delta_unbounded (s : search) :
  let s' := body unbounded s in
  delta s' == (if Qlt_bool (bestScore s) (bestScore s')
               then delta s * 2 else delta s * (1 # 2)).
Proof.
  pose proof (body_delta unbounded s) as B. cbv zeta in *.
  destruct (unbounded_deltas s) as [-> ->] in B.
  destruct (Qlt_bool _ _); [destruct B as [B | B] |]; exact B.
Qed.

Lemma iterate_delta_pos_unbounded (n : nat) (s : search) :
  0 < delta s -> 0 < delta (iterate n unbounded s).
Proof.
  revert s. induction n as [| n IH]; intros s H; simpl.
  - exact H.
  - apply IH. pose proof (body_delta_unbounded s) as B. cbv zeta in B.
    rewrite B. destruct (Qlt_bool _ _); lra.
Qed.

(** *** The best score *)

(** No score in the memo exceeds [bestScore]. *)
Definition best_bounds (m : memo) (best : Q) : Prop :=
  forall k v, lookup k m = Some v -> v <= best.

Lemma evaluate_bounds (v best : Q) (m : memo) (log : list Q) :
  best_bounds m best ->
  let '(score, m', _) := evaluate v m log in
  (score <= best -> best_bounds m' best) /\
  (best < score -> best_bounds m' score).
Proof.
  intros H. destruct (lookup v m) as [sc |] eqn:E.
  - rewrite (evaluate_hit _ _ _ _ E). split; intros Hs k w Hk.
    + now apply (H k).
    + pose proof (H k w Hk). lra.
  - rewrite (evaluate_miss _ _ _ E). split; intros Hs k w Hk;
      simpl in Hk; destruct (Qeq_bool k v).
    + injection Hk as <-. exact Hs.
    + now apply (H k).
    + injection Hk as <-. lra.
    + pose proof (H k w Hk). lra.
Qed.

Lemma body_bounds (domain : bound * bound) (s : search) :
  best_bounds (pastCalls s) (bestScore s) ->
  best_bounds (pastCalls (body domain s)) (bestScore (body domain s)).
Proof.
  intros H. rewrite body_unfold. cbv zeta.
  pose proof (evaluate_bounds (up_probe domain s) _ _ (calls s) H) as H1.
  destruct (evaluate (up_probe domain s) (pastCalls s) (calls s))
    as [[score1 m1] log1].
  destruct H1 as [H1le H1lt].
  destruct (Qlt_bool (bestScore s) score1) eqn:E1.
  - apply Qlt_bool_true in E1. simpl. now apply H1lt.
  - apply Qlt_bool_false in E1. specialize (H1le E1).
    pose proof (evaluate_bounds (down_probe domain s) _ _ log1 H1le) as H2.
    destruct (evaluate (down_probe domain s) m1 log1) as [[score2 m2] log2].
    destruct H2 as [H2le H2lt].
    destruct (Qlt_bool (bestScore s) score2) eqn:E2.
    + apply Qlt_bool_true in E2. simpl. now apply H2lt.
    + apply Qlt_bool_false in E2. simpl. now apply H2le.
Qed.

Lemma iterate_bounds_from (n : nat) (domain : bound * bound) (s : search) :
  best_bounds (pastCalls s) (bestScore s) ->
  best_bounds (pastCalls (iterate n domain s))
              (bestScore (iterate n domain s)).
Proof.
  revert s. induction n as [| n IH]; intros s H; simpl.
  - exact H.
  - apply IH. now apply body_bounds.
Qed.

(** Whatever the domain, [bestScore] is the largest score the memo
    holds. *)
Lemma iterate_bounds (n : nat) (domain : bound * bound) (init : Q) :
  let s := iterate n domain (start init) in
  best_bounds (pastCalls s) (bestScore s).
Proof.
  apply iterate_bounds_from. intros k v H. simpl in H.
  destruct (Qeq_bool k init); [| discriminate].
  injection H as <-. simpl. lra.
Qed.

End Objective.

(** *** The returned score, for an objective that respects numeric
    equality *)

Section ProperObjective.

Variable A : Type.
Variable objFunction : Q -> A -> Q.
Variable args : A.

Hypothesis objFunction_proper :
  forall a b, a == b -> objFunction a args == objFunction b args.

Abbreviation evaluate := (evaluate A objFunction args).
Abbreviation start := (start A objFunction args).
Abbreviation body := (body A objFunction args).
Abbreviation final := (final A objFunction args).
Abbreviation iterate := (iterate A objFunction args).

(** Every score in the memo is the objective's value at its key. *)
Definition memo_sound (m : memo) : Prop :=
  forall k v, lookup k m = Some v -> v == objFunction k args.

Lemma evaluate_sound (v : Q) (m : memo) (log : list Q) :
  memo_sound m ->
  let '(score, m', _) := evaluate v m log in
  score == objFunction v args /\ memo_sound m'.
Proof.
  intros H. destruct (lookup v m) as [sc |] eqn:E.
  - rewrite (evaluate_hit _ _ _ _ _ _ _ E). split; [now apply H | exact H].
  - rewrite (evaluate_miss _ _ _ _ _ _ E). split; [reflexivity |].
    intros k w Hk. simpl in Hk. destruct (Qeq_bool k v) eqn:Ek.
    + injection Hk as <-. apply objFunction_proper.
      symmetry. now apply Qeq_bool_iff.
    + now apply H.
Qed.

(** The state pairs [bestScore] with the point that achieved it. *)
Definition score_matches (s : search) : Prop :=
  memo_sound (pastCalls s) /\ bestScore s == objFunction (x s) args.

Lemma start_matches (init : Q) : score_matches (start init).
Proof.
  split; [| reflexivity].
  intros k v H. simpl in H. destruct (Qeq_bool k init) eqn:E;
    [| discriminate].
  injection H as <-. apply objFunction_proper.
  symmetry. now apply Qeq_bool_iff.
Qed.

(** Without a lower bound a pass keeps the pairing: after two failed
    probes [x] is back where the pass started. *)
Lemma body_matches (hi : bound) (s : search) :
  score_matches s -> score_matches (body (None, hi) s).
Proof.
  intros [Hm Hb]. rewrite body_unfold. cbv zeta.
  pose proof (evaluate_sound (up_probe (None, hi) s) _ (calls s) Hm) as H1.
  destruct (evaluate (up_probe (None, hi) s) (pastCalls s) (calls s))
    as [[score1 m1] log1].
  destruct H1 as [H1s H1m].
  destruct (Qlt_bool (bestScore s) score1).
  - split; assumption.
  - pose proof (evaluate_sound (down_probe (None, hi) s) _ log1 H1m) as H2.
    destruct (evaluate (down_probe (None, hi) s) m1 log1)
      as [[score2 m2] log2].
    destruct H2 as [H2s H2m].
    destruct (Qlt_bool (bestScore s) score2).
    + split; assumption.
    + split; [assumption |]. simpl. rewrite Hb.
      apply objFunction_proper.
      unfold down_probe, down_delta, up_probe. simpl. lra.
Qed.

Lemma iterate_matches (n : nat) (hi : bound) (s : search) :
  score_matches s -> score_matches (iterate n (None, hi) s).
Proof.
  revert s. induction n as [| n IH]; intros s H; simpl.
  - exact H.
  - apply IH. now apply body_matches.
Qed.

(** When the domain has no lower bound, as in the default, a [twiddle] that
    returns does so with [delta <= tolerance], and the returned score is
    the objective's value at the returned parameter. *)
Lemma final_matches_without_lower_bound (fuel : nat) (init tolerance : Q)
    (hi : bound) (s : search) :
  final fuel init tolerance (None, hi) = Some s ->
  delta s <= tolerance /\ bestScore s == objFunction (x s) args.
Proof.
  intros H. destruct (loop_some _ _ _ _ _ _ _ _ H) as (n & _ & -> & Hd & _).
  split; [exact Hd |].
  apply (iterate_matches n hi _ (start_matches init)).
Qed.

End ProperObjective.

Lemma large_tolerance_returns_init_witness :
  final unit parabola tt 5 0 (1 # 10) unbounded
  = Some (start unit parabola tt 0) /\
  calls (start unit parabola tt 0) = [0] /\
  twiddle unit parabola tt 5 0 (1 # 10) unbounded
  = Some {| parameter := 0; score := parabola 0 tt |}.
Proof.
  apply large_tolerance_returns_init. unfold Qle; simpl; lia.
Defined.

(** C3, as written, fails.  On the domain (0, 1): from x = 19/20 the probe
    x + delta = 21/20 would exceed 1, and the probe that is evaluated is
    39/40, not the bound 1; from x = 1/20, inside the domain, a flat
    objective makes the pass evaluate the downward probe -1/20, which lies
    below the lower bound 0. *)
Lemma probe_clamping_counterexample :
  let domain := (Some 0, Some 1) in
  (let s := start unit flat tt (19 # 20) in
   above (x s + delta s) (snd domain) = true /\
   up_probe domain s == 39 # 40 /\
   Qeq_bool (up_probe domain s) 1 = false /\
   In (up_probe domain s) (calls (body unit flat tt domain s))) /\
  (let s := start unit flat tt (1 # 20) in
   in_domain domain (x s) /\
   In (down_probe domain s) (calls (body unit flat tt domain s)) /\
   down_probe domain s == - (1 # 20) /\
   below (down_probe domain s) (fst domain) = true).
Proof.
  cbv zeta. split.
  - split; [reflexivity |]. split; [reflexivity |].
    split; [reflexivity |]. vm_compute. right. left. reflexivity.
  - split; [split; reflexivity |].
    split; [vm_compute; left; reflexivity |].
    split; reflexivity.
Qed.

Lemma upward_probe_clamping_witness :
  let s := start unit flat tt (19 # 20) in
  let domain := (Some 0, Some 1) in
  (above (x s + delta s) (Some 1) = true ->
   up_delta domain s == (1 - x s) / 2 /\
   up_probe domain s == (x s + 1) / 2) /\
  (above (x s + delta s) (Some 1) = false ->
   up_delta domain s = delta s /\ up_probe domain s = x s + delta s) /\
  up_probe domain s <= 1 /\
  down_probe domain s <= 1 /\
  (forall v, In v (calls (body unit flat tt domain s)) ->
             In v (calls s) \/ v = up_probe domain s
             \/ v = down_probe domain s) /\
  (forall v, In v (calls (body unit flat tt domain s)) ->
             In v (calls s) \/ v <= 1).
Proof.
  apply (upward_probe_clamping unit flat tt (Some 0) 1
           (start unit flat tt (19 # 20))).
  - unfold Qle; simpl; lia.
  - unfold Qle; simpl; lia.
Defined.

(** At that state the upper guard does fire: the probe 21/20 would exceed
    1, and the step becomes 1/40. *)
Lemma upper_guard_fires_at_witness :
  let s := start unit flat tt (19 # 20) in
  above (x s + delta s) (Some 1) = true /\
  up_delta (Some 0, Some 1) s == 1 # 40.
Proof. split; reflexivity. Qed.

(** C5 fails on the code.  For the objective [-x], [init = 0.05],
    [tolerance = 0.05] and [domain = (0, 1)], [twiddle] returns the
    parameter 3/40 with the score 1/20.  The objective was never evaluated
    at 3/40, where its value is -3/40; the score 1/20 was obtained at
    -1/20. *)
Theorem returned_score_is_not_objective_of_parameter :
  exists s r,
    final unit descending tt 10 (1 # 20) (1 # 20) (Some 0, Some 1) = Some s /\
    twiddle unit descending tt 10 (1 # 20) (1 # 20) (Some 0, Some 1)
    = Some r /\
    delta s <= 1 # 20 /\
    parameter r == 3 # 40 /\
    score r == 1 # 20 /\
    descending (parameter r) tt == - (3 # 40) /\
    Qeq_bool (descending (parameter r) tt) (score r) = false /\
    existsb (Qeq_bool (parameter r)) (calls s) = false /\
    descending (- (1 # 20)) tt == score r.
Proof.
  eexists. eexists.
  split; [vm_compute; reflexivity |].
  split; [vm_compute; reflexivity |].
  cbn [delta parameter score calls].
  repeat split; vm_compute; try reflexivity; discriminate.
Qed.

(** C9, as written, fails for the single-parameter search.  On the domain
    (0, 1) with [init = 1], inside the domain and with the loop condition
    true for the tolerance 1e-5, the upper guard sets the step to exactly 0
    and the pass ends with a step of 0.  On the domain (0, 10) with
    [init = -1] and a flat objective both probes fail and the step grows
    from 1/10 to 9/40.  On the domain (0, 1) with [init = 19/20] and the
    objective [x] the upward probe succeeds and the step shrinks from 1/10
    to 1/20. *)
Lemma step_size_counterexample :
  (let domain := (Some 0, Some 1) in
   let s := start unit flat tt 1 in
   in_domain domain (x s) /\
   Qlt_bool (1 # 100000) (delta s) = true /\
   up_delta domain s == 0 /\
   delta (body unit flat tt domain s) == 0) /\
  (let domain := (Some 0, Some 10) in
   let s := start unit flat tt (- (1)) in
   let s' := body unit flat tt domain s in
   Qlt_bool (bestScore s) (bestScore s') = false /\
   delta s == 1 # 10 /\ delta s' == 9 # 40) /\
  (let domain := (Some 0, Some 1) in
   let s := start unit ascending tt (19 # 20) in
   let s' := body unit ascending tt domain s in
   Qlt_bool (bestScore s) (bestScore s') = true /\
   delta s == 1 # 10 /\ delta s' == 1 # 20).
Proof.
  cbv zeta. repeat split; vm_compute; reflexivity.
Qed.

End TwiddleFacts.

(** * Properties of the vector optimiser *)

Module VectorTwiddleFacts.

Import VectorTwiddle Samples Lqa.
Local Open Scope Q_scope.

(** *** List update *)

Lemma length_update (i : nat) (v : Q) (l : list Q) :
  List.length (update i v l) = List.length l.
Proof.
  revert i. induction l as [| h t IH]; intros [| i]; simpl; auto.
Qed.

Lemma get_update_same (i : nat) (v : Q) (l : list Q) :
  (i < List.length l)%nat -> get i (update i v l) = v.
Proof.
  unfold get. revert i. induction l as [| h t IH]; intros [| i] H;
    simpl in *; try lia; auto.
  apply IH. lia.
Qed.

Lemma get_update_other (i j : nat) (v : Q) (l : list Q) :
  i <> j -> get j (update i v l) = get j l.
Proof.
  unfold get. revert i j.
  induction l as [| h t IH]; intros [| i] [| j] H; simpl; auto; try lia.
Qed.

Lemma update_update (i : nat) (v w : Q) (l : list Q) :
  update i v (update i w l) = update i v l.
Proof.
  revert i. induction l as [| h t IH]; intros [| i]; simpl; auto.
  now rewrite IH.
Qed.

Lemma Forall_update (P : Q -> Prop) (i : nat) (v : Q) (l : list Q) :
  P v -> Forall P l -> Forall P (update i v l).
Proof.
  intros Hv. revert i. induction l as [| h t IH]; intros [| i] H; simpl;
    auto; inversion H; subst; constructor; auto.
Qed.

Lemma Qlt_bool_irrefl (a : Q) : Qlt_bool a a = false.
Proof.
  unfold Qlt_bool. apply negb_false_iff, Qle_bool_iff. lra.
Qed.

Section Objective.

Variable run : list Q -> Q.

Abbreviation axis_step := (axis_step run).
Abbreviation axis_step_spec := (axis_step_spec run).
Abbreviation sweep := (sweep run).
Abbreviation start := (start run).
Abbreviation twiddle := (twiddle run).

(** *** One axis *)

Lemma axis_step_lengths (i : nat) (s : state) :
  List.length (p (axis_step i s)) = List.length (p s) /\
  List.length (dp (axis_step i s)) = List.length (dp s).
Proof.
  unfold VectorTwiddle.axis_step.
  repeat match goal with
         | |- context [if ?c then _ else _] => destruct c
         end; simpl; rewrite ?length_update; auto.
Qed.

Lemma axis_step_other (i j : nat) (s : state) :
  i <> j ->
  get j (p (axis_step i s)) = get j (p s) /\
  get j (dp (axis_step i s)) = get j (dp s).
Proof.
  intros H. unfold VectorTwiddle.axis_step.
  repeat match goal with
         | |- context [if ?c then _ else _] => destruct c
         end; simpl; rewrite ?(get_update_other i j) by exact H; auto.
Qed.

(** A probe that lowers the error grows the step of its axis by 1.1; two
    probes that do not shrink it by 0.9. *)
Lemma axis_step_dp (i : nat) (s : state) :
  let s' := axis_step i s in
  dp s' = update i (get i (dp s) *
                    (if Qlt_bool (best_err s') (best_err s)
                     then 11 # 10 else 9 # 10)) (dp s).
Proof.
  unfold VectorTwiddle.axis_step. cbv zeta.
  destruct (Qlt_bool _ (best_err s)) eqn:E1.
  - simpl. rewrite E1. reflexivity.
  - match goal with
    | |- context [if ?c then _ else _] => destruct c eqn:E2
    end; simpl.
    + rewrite E2. reflexivity.
    + rewrite Qlt_bool_irrefl. reflexivity.
Qed.

(** On an axis that holds 0 with step 1 the probe of the code is the probe
    the specification describes. *)
Lemma axis_step_at_origin (i : nat) (s : state) :
  (i < List.length (p s))%nat ->
  get i (p s) = 0 -> get i (dp s) = 1 ->
  axis_step i s = axis_step_spec i s.
Proof.
  intros Hi Hp Hd.
  unfold VectorTwiddle.axis_step, VectorTwiddle.axis_step_spec. cbv zeta.
  rewrite Hp, Hd.
  rewrite !get_update_same by (rewrite ?length_update; exact Hi).
  rewrite !update_update.
  reflexivity.
Qed.

Lemma update_out_of_range (i : nat) (v : Q) (l : list Q) :
  (List.length l <= i)%nat -> update i v l = l.
Proof.
  revert i. induction l as [| h t IH]; intros [| i] H; simpl in *;
    auto; try lia.
  rewrite IH by lia. reflexivity.
Qed.

Lemma get_in_range (i : nat) (l : list Q) :
  (i < List.length l)%nat -> In (get i l) l.
Proof. intros H. unfold get. now apply nth_In. Qed.

(** Positive steps stay positive through a probe. *)
Lemma axis_step_positive (i : nat) (s : state) :
  Forall (fun d => 0 < d) (dp s) ->
  Forall (fun d => 0 < d) (dp (axis_step i s)).
Proof.
  intros H. rewrite axis_step_dp.
  destruct (Nat.lt_ge_cases i (List.length (dp s))) as [Hi | Hi].
  - apply Forall_update; [| exact H].
    assert (Hg : 0 < get i (dp s)).
    { rewrite Forall_forall in H. apply H. now apply get_in_range. }
    destruct (Qlt_bool _ _); nra.
  - rewrite update_out_of_range by exact Hi. exact H.
Qed.

(** *** The sweep *)

Lemma axes_succ (step : nat -> state -> state) (k : nat) (s : state) :
  axes step (S k) s = step k (axes step k s).
Proof.
  unfold axes. rewrite seq_S, fold_left_app. reflexivity.
Qed.

(** Before axis [k] is probed, the axes from [k] on still hold 0 with
    step 1. *)
Lemma axes_prefix (k : nat) :
  let s := axes axis_step k start in
  List.length (p s) = 3%nat /\ List.length (dp s) = 3%nat /\
  forall j, (k <= j < 3)%nat -> get j (p s) = 0 /\ get j (dp s) = 1.
Proof.
  induction k as [| k IH]; cbv zeta.
  - repeat split; try reflexivity;
      destruct H as [_ H]; destruct j as [| [| [| j]]]; try reflexivity; lia.
  - rewrite axes_succ. cbv zeta in IH. destruct IH as (Lp & Ld & IH).
    destruct (axis_step_lengths k (axes axis_step k start)) as [Lp' Ld'].
    split; [congruence |]. split; [congruence |].
    intros j Hj.
    destruct (axis_step_other k j (axes axis_step k start)) as [-> ->];
      [lia |].
    apply IH. lia.
Qed.

Lemma axes_follow_spec (k : nat) :
  (k <= 3)%nat -> axes axis_step k start = axes axis_step_spec k start.
Proof.
  induction k as [| k IH]; intros Hk.
  - reflexivity.
  - rewrite !axes_succ, <- IH by lia.
    destruct (axes_prefix k) as (Lp & _ & Hz).
    destruct (Hz k) as [Hp Hd]; [lia |].
    apply axis_step_at_origin; [rewrite Lp; lia | exact Hp | exact Hd].
Qed.

(** After the sweep every step is 1.1 or 0.9. *)
Lemma sweep_steps :
  Forall (fun d => d = 11 # 10 \/ d = 9 # 10) (dp (sweep start)).
Proof.
  unfold VectorTwiddle.sweep,  VectorTwiddle.axes.
  change (List.length (p start)) with 3%nat. cbn [seq fold_left].
  set (s0 := start).
  set (s1 := axis_step 0 s0).
  set (s2 := axis_step 1 s1).
  pose proof (axis_step_dp 0 s0) as D0.
  pose proof (axis_step_dp 1 s1) as D1.
  pose proof (axis_step_dp 2 s2) as D2.
  cbv zeta in D0, D1, D2. fold s1 in D0. fold s2 in D1.
  set (c0 := if Qlt_bool (best_err s1) (best_err s0)
             then 11 # 10 else 9 # 10) in D0.
  set (c1 := if Qlt_bool (best_err s2) (best_err s1)
             then 11 # 10 else 9 # 10) in D1.
  set (c2 := if Qlt_bool (best_err (axis_step 2 s2)) (best_err s2)
             then 11 # 10 else 9 # 10) in D2.
  assert (H0 : c0 = 11 # 10 \/ c0 = 9 # 10)
    by (unfold c0; case (Qlt_bool (best_err s1) (best_err s0)); auto).
  assert (H1 : c1 = 11 # 10 \/ c1 = 9 # 10)
    by (unfold c1; case (Qlt_bool (best_err s2) (best_err s1)); auto).
  assert (H2 : c2 = 11 # 10 \/ c2 = 9 # 10)
    by (unfold c2;
        case (Qlt_bool (best_err (axis_step 2 s2)) (best_err s2)); auto).
  clearbody c0 c1 c2.
  rewrite D2, D1, D0. cbn [dp s0 VectorTwiddle.start].
  destruct H0 as [-> | ->], H1 as [-> | ->], H2 as [-> | ->];
    vm_compute; repeat (apply Forall_cons; [auto |]); apply Forall_nil.
Qed.

Lemma sweep_sum_bounds :
  27 # 10 <= sum (dp (sweep start)) <= 33 # 10.
Proof.
  pose proof sweep_steps as H.
  destruct (axes_prefix 3) as (_ & Ld & _).
  change (axes axis_step 3 start) with (sweep start) in Ld.
  destruct (dp (sweep start)) as [| a [| b [| c [| ? ?]]]];
    try discriminate.
  inversion H as [| ? ? Ha H1]; subst.
  inversion H1 as [| ? ? Hb H2]; subst.
  inversion H2 as [| ? ? Hc _]; subst.
  unfold sum. cbn [fold_left].
  destruct Ha as [-> | ->], Hb as [-> | ->], Hc as [-> | ->];
    split; vm_compute; discriminate.
Qed.

(** In the runs of the code as it is written, the probe of axis [i]
    starts from the state left by the axes before it, where the axis still
    holds 0 with step 1, and there it coincides with the probe the
    specification describes; so does the single sweep that [twiddle]
    makes. *)
Theorem axis_probe_follows_spec (i : nat) :
  (i < 3)%nat ->
  axis_step i (axes axis_step i start)
  = axis_step_spec i (axes axis_step i start) /\
  sweep start = axes axis_step_spec 3 start.
Proof.
  intros Hi. split.
  - destruct (axes_prefix i) as (Lp & _ & Hz).
    destruct (Hz i) as [Hp Hd]; [lia |].
    apply axis_step_at_origin; [rewrite Lp; lia | exact Hp | exact Hd].
  - apply (axes_follow_spec 3). lia.
Qed.

(** C4 fails on the code.  For every tolerance below 2.7, the default 0.2
    among them, and every error function, [twiddle] returns after its first
    sweep, while the sum of the steps, at least 2.7, still exceeds the
    tolerance: the [return] sits inside the [while] body, so no second
    sweep is ever made. *)
Theorem twiddle_returns_after_one_sweep (fuel : nat) (tol : Q) :
  tol < 27 # 10 ->
  twiddle (S fuel) tol
  = Some (PyTuple (p (sweep start)) (best_err (sweep start))) /\
  Qlt_bool tol (sum (dp (sweep start))) = true.
Proof.
  intros Htol. split.
  - unfold VectorTwiddle.twiddle. cbn [while].
    assert (C : Qlt_bool tol (sum (dp start)) = true).
    { unfold Qlt_bool. apply negb_true_iff, not_true_iff_false.
      rewrite Qle_bool_iff. change (sum (dp start)) with (0 + 1 + 1 + 1).
      lra. }
    rewrite C. reflexivity.
  - destruct sweep_sum_bounds as [Hlo _].
    unfold Qlt_bool. apply negb_true_iff, not_true_iff_false.
    rewrite Qle_bool_iff. lra.
Qed.


End Objective.

Lemma axis_probe_follows_spec_witness :
  axis_step bowl 1 (axes (axis_step bowl) 1 (start bowl))
  = axis_step_spec bowl 1 (axes (axis_step bowl) 1 (start bowl)) /\
  sweep bowl (start bowl) = axes (axis_step_spec bowl) 3 (start bowl).
Proof.
  apply axis_probe_follows_spec. lia.
Defined.

Lemma twiddle_returns_after_one_sweep_witness :
  twiddle bowl 1 (1 # 5)
  = Some (PyTuple (p (sweep bowl (start bowl)))
                  (best_err (sweep bowl (start bowl)))) /\
  Qlt_bool (1 # 5) (sum (dp (sweep bowl (start bowl)))) = true.
Proof.
  apply twiddle_returns_after_one_sweep. unfold Qlt; simpl; lia.
Defined.

(** Away from 0 the second probe of the code is not the specified one: it
    negates the incremented value instead of stepping back by twice the
    step.  From [p = [1, 0, 0]] with unit steps and a flat error the code
    probes -2 and ends the axis at -1, where the specified probe is 0 and
    the axis is restored to 1.  No run of [twiddle] reaches such a state,
    since it probes each axis once, from 0. *)
Lemma axis_step_negates_away_from_origin :
  let s := {| p := [1; 0; 0]; dp := [1; 1; 1]; best_err := 0 |} in
  p (axis_step (fun _ => 0) 0 s) = [- (1); 0; 0] /\
  p (axis_step_spec (fun _ => 0) 0 s) = [1; 0; 0].
Proof. split; reflexivity. Qed.


(** What the negation costs once a second sweep is made.  For the sample
    error [ridge] the first sweep finds the optimum [[1, 0, 0]] with error
    0; a second sweep of the same loop body probes 2.1, then -2.1, and
    leaves the first parameter at -1 with [best_err] still 0, though the
    error there is 4. *)
Lemma second_sweep_loses_the_optimum :
  let s1 := sweep ridge (start ridge) in
  let s2 := sweep ridge s1 in
  p s1 = [1; 0; 0] /\ best_err s1 = ridge (p s1) /\
  Forall2 Qeq (p s2) [- (1); 0; 0] /\
  best_err s2 == 0 /\ ridge (p s2) == 4.
Proof.
  cbv zeta. split; [reflexivity |]. split; [reflexivity |].
  split; [vm_compute; repeat constructor |].
  split; vm_compute; reflexivity.
Qed.

(** With the tolerance 2.5 and the sample error [bowl], the code returns
    [[1, 0, 0]] with error 1 after its single sweep, while sweeping until
    the sum of the steps is at most 2.5 ends at [[2.1, 0, 0]] with error
    0.01. *)
Lemma one_sweep_is_not_the_repeated_sweep :
  twiddle bowl 6 (5 # 2) = Some (PyTuple [1; 0; 0] 1) /\
  exists params err,
    twiddle_spec bowl 6 (5 # 2) = Some (PyTuple params err) /\
    Forall2 Qeq params [21 # 10; 0; 0] /\ err == 1 # 100.
Proof.
  split; [vm_compute; reflexivity |].
  eexists. eexists. split; [vm_compute; reflexivity |].
  split; [repeat constructor |]; vm_compute; reflexivity.
Qed.

End VectorTwiddleFacts.

(** * Step sizes in both optimisers *)

Module StepSizeFacts.

Import Lqa.
Local Open Scope Q_scope.

(** C9, amended.  Every step size stays non-negative.  In the
    single-parameter search a pass doubles the step in force at a
    successful probe, the upward step after a successful upward probe and
    the downward step after a failed upward and a successful downward
    probe, and halves the downward step after two failed probes; the
    upward step is [delta] itself unless the upper guard has replaced it
    by half the distance to the bound, and the downward step is the upward
    one unless the lower guard has done the same.  On the unbounded
    default domain [delta] is therefore always positive, doubled by a
    successful pass and halved by a failed one.  In the vector search a
    probe multiplies the step of its axis by 1.1 when it lowers the error
    and by 0.9 when both directions fail, positive steps stay positive,
    and after the sweep of [twiddle] every step is 1.1 or 0.9. *)
Theorem step_sizes_adapt :
  (forall (A : Type) (objFunction : Q -> A -> Q) (args : A) (init : Q)
          (domain : Twiddle.bound * Twiddle.bound) (n : nat),
      let s := Twiddle.iterate A objFunction args n domain
                 (Twiddle.start A objFunction args init) in
      let s' := Twiddle.body A objFunction args domain s in
      0 <= Twiddle.delta s /\
      Twiddle.delta s' =
        (if TwiddleFacts.up_improves A objFunction args domain s
         then Twiddle.up_delta domain s * 2
         else if TwiddleFacts.down_improves A objFunction args domain s
         then Twiddle.down_delta domain s * 2
         else Twiddle.down_delta domain s * (1 # 2)) /\
      Twiddle.up_delta domain s =
        (if Twiddle.above (Twiddle.x s + Twiddle.delta s) (snd domain)
         then Twiddle.half_gap (snd domain) (Twiddle.x s)
         else Twiddle.delta s) /\
      Twiddle.down_delta domain s =
        (if Twiddle.below (Twiddle.up_probe domain s
                           - Twiddle.up_delta domain s) (fst domain)
         then Twiddle.half_gap (fst domain) (Twiddle.up_probe domain s)
         else Twiddle.up_delta domain s)) /\
  (forall (A : Type) (objFunction : Q -> A -> Q) (args : A) (init : Q)
          (n : nat),
      let s := Twiddle.iterate A objFunction args n Twiddle.unbounded
                 (Twiddle.start A objFunction args init) in
      let s' := Twiddle.body A objFunction args Twiddle.unbounded s in
      0 < Twiddle.delta s /\
      Twiddle.delta s' ==
      (if Qlt_bool (Twiddle.bestScore s) (Twiddle.bestScore s')
       then Twiddle.delta s * 2 else Twiddle.delta s * (1 # 2))) /\
  (forall (run : list Q -> Q) (i : nat) (s : VectorTwiddle.state),
      let s' := VectorTwiddle.axis_step run i s in
      VectorTwiddle.dp s' =
      VectorTwiddle.update i
        (VectorTwiddle.get i (VectorTwiddle.dp s) *
         (if Qlt_bool (VectorTwiddle.best_err s') (VectorTwiddle.best_err s)
          then 11 # 10 else 9 # 10))
        (VectorTwiddle.dp s)) /\
  (forall (run : list Q -> Q) (i : nat) (s : VectorTwiddle.state),
      Forall (fun d => 0 < d) (VectorTwiddle.dp s) ->
      Forall (fun d => 0 < d)
             (VectorTwiddle.dp (VectorTwiddle.axis_step run i s))) /\
  (forall run : list Q -> Q,
      Forall (fun d => d = 11 # 10 \/ d = 9 # 10)
             (VectorTwiddle.dp
                (VectorTwiddle.sweep run (VectorTwiddle.start run)))).
Proof.
  split; [| split; [| split; [| split]]].
  - intros A f a init domain n s s'. split; [| split; [| split]].
    + apply TwiddleFacts.iterate_delta_nonneg. simpl. lra.
    + apply TwiddleFacts.body_step.
    + reflexivity.
    + reflexivity.
  - intros A f a init n s s'. split.
    + apply TwiddleFacts.iterate_delta_pos_unbounded. simpl. lra.
    + apply TwiddleFacts.body_delta_unbounded.
  - intros run i s. apply VectorTwiddleFacts.axis_step_dp.
  - intros run i s. apply VectorTwiddleFacts.axis_step_positive.
  - intros run. apply VectorTwiddleFacts.sweep_steps.
Qed.

End StepSizeFacts.

(** * Further properties of the vehicle *)

Module MotionFacts.

Import Robot Motion RobotFacts.
Local Open Scope R_scope.

(** [move] in terms of the quantities it computes on its way. *)
Lemma move_unfold (s d t m : R) (r : Robot) (g : rng) :
  fst (move s d t m (r, g)) =
  let d2 := distance2 d r g in
  let tu := turn s d m r g in
  if Rlt_dec (Rabs tu) t then
    mkRobot (x r + d2 * cos (orientation r))
            (y r + d2 * sin (orientation r))
            (pymod (orientation r + tu) two_pi)
            (length r) (steering_noise r) (distance_noise r)
            (steering_drift r)
  else
    let radius := d2 / tu in
    let o := pymod (orientation r + tu) two_pi in
    mkRobot (x r - sin (orientation r) * radius + sin o * radius)
            (y r + cos (orientation r) * radius - cos o * radius)
            o (length r) (steering_noise r) (distance_noise r)
            (steering_drift r).
Proof.
  cbv zeta. unfold move, turn, steering2, distance2, clamp_steering,
    clamp_distance, gauss. cbn [fst snd].
  match goal with
  | |- context [Rlt_dec (Rabs ?tu) t] => destruct (Rlt_dec (Rabs tu) t)
  end; reflexivity.
Qed.

(** *** Whole turns *)





(** Adding whole multiples of the divisor does not change the remainder. *)
Lemma pymod_shift (a b : R) (k : Z) :
  0 < b -> pymod (a + b * IZR k) b = pymod a b.
Proof.
  intros Hb. unfold pymod.
  assert (E : (a + b * IZR k) / b = a / b + IZR k) by (field; lra).
  rewrite E.
  assert (Hk : Int_part (a / b + IZR k) = (Int_part (a / b) + k)%Z).
  { symmetry. apply Int_part_spec.
    destruct (base_Int_part (a / b)) as [Hlo Hhi].
    rewrite plus_IZR. lra. }
  rewrite Hk, plus_IZR. ring.
Qed.

(** *** The sine of an angle is no larger than the angle *)



(** *** Clamping *)

Lemma move_depends_on_clamps (s s' d d' t m : R) (st : Robot * rng) :
  clamp_steering s m = clamp_steering s' m ->
  clamp_distance d = clamp_distance d' ->
  move s d t m st = move s' d' t m st.
Proof.
  intros Hs Hd. destruct st as [r g]. unfold move.
  unfold clamp_steering, clamp_distance in Hs, Hd. cbv zeta in Hs.
  rewrite Hs, Hd. reflexivity.
Qed.

(** X1.  Steering saturates: for a limit [m >= 0], a steering command
    above [m] moves the vehicle exactly as the command [m] does, and one
    below [- m] exactly as [- m] does, generator included. *)
Theorem steering_saturates (s d t m : R) (st : Robot * rng) :
  0 <= m ->
  (m < s -> move s d t m st = move m d t m st) /\
  (s < - m -> move s d t m st = move (- m) d t m st).
Proof.
  intros Hm. split; intros Hs; apply move_depends_on_clamps; auto;
    unfold clamp_steering; cbv zeta;
    destruct (Rlt_dec m s); destruct (Rlt_dec m m);
    destruct (Rlt_dec m (- m)); destruct (Rlt_dec s (- m));
    destruct (Rlt_dec (- m) (- m)); destruct (Rlt_dec m (- m));
    destruct (Rlt_dec (- m) (- - m)); lra.
Qed.

Lemma steering_saturates_witness :
  (PI / 4 < 3 ->
   move 3 1 default_tolerance (PI / 4) (init 20, constant_draws 0)
   = move (PI / 4) 1 default_tolerance (PI / 4)
       (init 20, constant_draws 0)) /\
  (3 < - (PI / 4) ->
   move 3 1 default_tolerance (PI / 4) (init 20, constant_draws 0)
   = move (- (PI / 4)) 1 default_tolerance (PI / 4)
       (init 20, constant_draws 0)).
Proof.
  apply steering_saturates. pose proof PI4_RGT_0. lra.
Defined.

(** X2.  The vehicle never reverses on command: a distance that is not
    positive acts as the distance 0, for every vehicle, noisy or not, and
    every generator; and when moreover the distance noise is zero, the
    heading normalised and the tolerance positive, such a [move] leaves
    x, y and the heading as they were. *)
Theorem nonpositive_distance_stands_still (s d t m : R) (r : Robot)
    (g : rng) :
  d <= 0 ->
  move s d t m (r, g) = move s 0 t m (r, g) /\
  (distance_noise r = 0 -> normalised (orientation r) -> 0 < t ->
   pose (fst (move s d t m (r, g))) = pose r).
Proof.
  intros Hd.
  assert (Hc : clamp_distance d = 0).
  { unfold clamp_distance. destruct (Rlt_dec d 0); lra. }
  split.
  - apply move_depends_on_clamps; [reflexivity |].
    rewrite Hc. unfold clamp_distance. destruct (Rlt_dec 0 0); lra.
  - intros Hn Ho Ht. rewrite move_unfold. cbv zeta.
    assert (Hd2 : distance2 d r g = 0).
    { unfold distance2, gauss. cbn [fst]. rewrite Hc, Hn. ring. }
    assert (Htu : turn s d m r g = 0).
    { unfold turn. rewrite Hd2. unfold Rdiv. ring. }
    rewrite Htu, Hd2, Rabs_R0.
    destruct (Rlt_dec 0 t) as [_ | Hc']; [| lra].
    unfold pose. cbn [x y orientation].
    rewrite !Rmult_0_l, !Rplus_0_r, (pymod_small _ _ Ho). reflexivity.
Qed.

Lemma nonpositive_distance_stands_still_witness :
  move (1 / 10) (- (5)) default_tolerance default_max_steering_angle
       (set_noise 1 2 (init 20), constant_draws 1)
  = move (1 / 10) 0 default_tolerance default_max_steering_angle
         (set_noise 1 2 (init 20), constant_draws 1) /\
  pose (fst (move (1 / 10) (- (5)) default_tolerance
               default_max_steering_angle (init 20, constant_draws 1)))
  = pose (init 20).
Proof.
  split.
  - apply (nonpositive_distance_stands_still (1 / 10) (- (5))
             default_tolerance default_max_steering_angle
             (set_noise 1 2 (init 20)) (constant_draws 1)).
    lra.
  - apply (nonpositive_distance_stands_still (1 / 10) (- (5))
             default_tolerance default_max_steering_angle
             (init 20) (constant_draws 1)).
    + lra.
    + reflexivity.
    + simpl. split; [lra | apply two_pi_pos].
    + unfold default_tolerance. lra.
Defined.

(** *** The turning branch *)






(** *** The pose setter *)

(** X5.  [set] stores a normalised heading as it is and is blind to whole
    turns: for a heading [o] between 0 (included) and 2 pi (excluded) and
    any integer [k], setting the heading to [o + 2 pi k] leaves the pose
    (x, y, o). *)
Theorem set_round_trip (x0 y0 o : R) (k : Z) (r : Robot) :
  normalised o ->
  pose (set x0 y0 (o + two_pi * IZR k) r) = (x0, y0, o).
Proof.
  intros Ho. unfold pose, set. cbn [x y orientation].
  rewrite (pymod_shift _ _ _ two_pi_pos), (pymod_small _ _ Ho).
  reflexivity.
Qed.

Lemma set_round_trip_witness :
  pose (set 3 4 (1 + two_pi * IZR (- 2)) (init 20)) = (3, 4, 1).
Proof.
  apply set_round_trip. unfold normalised, two_pi.
  pose proof PI2_1. lra.
Defined.

(** *** What no call changes *)

Lemma exec_length (c : call) (st : Robot * rng) :
  length (fst (exec c st)) = length (fst st).
Proof.
  destruct c; simpl; auto.
  destruct st as [r g]. now destruct (move_parameters steering distance
    tolerance max_steering_angle (r, g)) as (H & _).
Qed.

(** X6.  The wheelbase given at construction is never changed: after
    every call of every sequence of [move], [set], [set_noise] and
    [set_steering_drift] calls, [length] is the constructor's argument. *)
Theorem length_never_changes (len : R) (g : rng) (cs : list call) :
  Forall (fun st => length (fst st) = len) (states cs (init len, g)).
Proof.
  assert (H : forall st, length (fst st) = len ->
                         Forall (fun st' => length (fst st') = len)
                                (states cs st)).
  { induction cs as [| c cs IH]; intros st Hst; simpl.
    - constructor.
    - assert (Hc : length (fst (exec c st)) = len)
        by (rewrite exec_length; exact Hst).
      constructor; [exact Hc | now apply IH]. }
  apply H. reflexivity.
Qed.

End MotionFacts.

(** * Further properties of the single-parameter optimiser *)

Module TwiddleSearchFacts.

Import Twiddle Samples TwiddleFacts Lqa.
Local Open Scope Q_scope.

Lemma Qeq_of_eq (a b : Q) : a = b -> a == b.
Proof. intros ->. reflexivity. Qed.

Ltac qlra :=
  repeat match goal with
         | H : @eq Q _ _ |- _ => apply Qeq_of_eq in H
         end; lra.

Section Objective.

Variable A : Type.
Variable objFunction : Q -> A -> Q.
Variable args : A.

Abbreviation f v := (objFunction v args).
Abbreviation evaluate := (evaluate A objFunction args).
Abbreviation start := (start A objFunction args).
Abbreviation body := (body A objFunction args).
Abbreviation loop := (loop A objFunction args).
Abbreviation final := (final A objFunction args).
Abbreviation twiddle := (twiddle A objFunction args).
Abbreviation iterate := (iterate A objFunction args).

(** The memo a call log gives rise to: each input with the objective's
    value there. *)
Definition memo_of (log : list Q) : memo := map (fun v => (v, f v)) log.

Lemma lookup_memo_of (k w : Q) (log : list Q) :
  lookup k (memo_of log) = Some w -> exists v, In v log /\ w = f v.
Proof.
  induction log as [| u log IH]; simpl; [discriminate |].
  destruct (Qeq_bool k u).
  - intros [= <-]. exists u. auto.
  - intros H. destruct (IH H) as (v & Hin & Hw). exists v. auto.
Qed.

(** What one memoised evaluation does to a log whose values do not exceed
    [best]. *)
Lemma evaluate_log_facts (v best : Q) (log : list Q) :
  (forall u, In u log -> f u <= best) ->
  let '(sc, m', log') := evaluate v (memo_of log) log in
  m' = memo_of log' /\
  (exists u, In u log' /\ sc = f u) /\
  (forall u, In u log -> In u log') /\
  (forall u, In u log' -> f u <= best \/ f u = sc) /\
  (best < sc -> log' = v :: log) /\
  (List.length log' <= S (List.length log))%nat.
Proof.
  intros Hle. destruct (lookup v (memo_of log)) as [w |] eqn:E.
  - rewrite (evaluate_hit _ _ _ _ _ _ _ E).
    destruct (lookup_memo_of _ _ _ E) as (u & Hin & ->).
    repeat split; auto.
    + exists u. auto.
    + intros Hlt. specialize (Hle u Hin). simpl in Hle. lra.
  - rewrite (evaluate_miss _ _ _ _ _ _ E).
    repeat split; auto.
    + exists v. split; [now left | reflexivity].
    + intros u Hin. now right.
    + intros u [<- | Hin]; [now right | left; auto].
Qed.

(** The facts a reachable state keeps: the memo is the memo of the log,
    no logged value exceeds [bestScore], and [bestScore] is the value at a
    logged input. *)
Definition best_is_max (s : search) : Prop :=
  pastCalls s = memo_of (calls s) /\
  (forall u, In u (calls s) -> f u <= bestScore s) /\
  (exists u, In u (calls s) /\ bestScore s = f u).

Lemma start_best_is_max (init : Q) : best_is_max (start init).
Proof.
  split; [reflexivity |]. split.
  - intros u [<- | []]. simpl. lra.
  - exists init. split; [now left | reflexivity].
Qed.

(** One pass: the facts are kept, the best score does not decrease, the
    log only grows, and by at most two inputs. *)
Lemma body_best_is_max (domain : bound * bound) (s : search) :
  best_is_max s ->
  best_is_max (body domain s) /\
  bestScore s <= bestScore (body domain s) /\
  (forall u, In u (calls s) -> In u (calls (body domain s))) /\
  (List.length (calls (body domain s)) <= 2 + List.length (calls s))%nat /\
  (bestScore s < bestScore (body domain s) ->
   In (x (body domain s)) (calls (body domain s)) /\
   ~ In (x (body domain s)) (calls s) /\
   bestScore (body domain s) = f (x (body domain s))).
Proof.
  intros (Hm & Hle & Hex). rewrite body_unfold. cbv zeta. rewrite Hm.
  pose proof (evaluate_log_facts (up_probe domain s) _ _ Hle) as H1.
  destruct (evaluate (up_probe domain s) (memo_of (calls s)) (calls s))
    as [[score1 m1] log1].
  destruct H1 as (M1 & X1 & I1 & L1 & F1 & N1).
  destruct (Qlt_bool (bestScore s) score1) eqn:E1.
  - (* the upward probe improves *)
    apply Qlt_bool_true in E1. unfold best_is_max. cbn [bestScore pastCalls calls x].
    specialize (F1 E1). subst log1.
    assert (Hs : score1 = f (up_probe domain s)).
    { destruct X1 as (u & [<- | Hu] & Hs); [exact Hs |].
      specialize (Hle u Hu). qlra. }
    split; [| split; [| split; [| split]]].
    + split; [exact M1 | split].
      * intros u [<- | Hu]; [qlra | specialize (Hle u Hu); lra].
      * exists (up_probe domain s). split; [now left | exact Hs].
    + lra.
    + intros u Hu. now right.
    + simpl. lia.
    + intros _. split; [now left | split; [| exact Hs]].
      intros Hin. specialize (Hle _ Hin). qlra.
  - (* it does not: the downward probe *)
    apply Qlt_bool_false in E1.
    assert (Hle1 : forall u, In u log1 -> f u <= bestScore s).
    { intros u Hu. destruct (L1 u Hu) as [H | H]; [exact H | qlra]. }
    subst m1.
    pose proof (evaluate_log_facts (down_probe domain s) _ _ Hle1) as H2.
    destruct (evaluate (down_probe domain s) (memo_of log1) log1)
      as [[score2 m2] log2].
    destruct H2 as (M2 & X2 & I2 & L2 & F2 & N2).
    destruct (Qlt_bool (bestScore s) score2) eqn:E2.
    + apply Qlt_bool_true in E2. unfold best_is_max. cbn [bestScore pastCalls calls x].
      specialize (F2 E2). subst log2.
      assert (Hs : score2 = f (down_probe domain s)).
      { destruct X2 as (u & [<- | Hu] & Hs); [exact Hs |].
        specialize (Hle1 u Hu). qlra. }
      split; [| split; [| split; [| split]]].
      * split; [exact M2 | split].
        -- intros u [<- | Hu]; [qlra | specialize (Hle1 u Hu); lra].
        -- exists (down_probe domain s). split; [now left | exact Hs].
      * lra.
      * intros u Hu. right. now apply I1.
      * simpl. lia.
      * intros _. split; [now left | split; [| exact Hs]].
        intros Hin. specialize (Hle1 _ (I1 _ Hin)). qlra.
    + apply Qlt_bool_false in E2. unfold best_is_max. cbn [bestScore pastCalls calls x].
      split; [| split; [| split; [| split]]].
      * split; [exact M2 | split].
        -- intros u Hu. destruct (L2 u Hu) as [H | H]; [exact H | qlra].
        -- destruct Hex as (u & Hu & Hb). exists u. auto.
      * lra.
      * intros u Hu. auto.
      * lia.
      * intros Hlt. lra.
Qed.

Lemma iterate_best_is_max (n : nat) (domain : bound * bound) (s : search) :
  best_is_max s ->
  best_is_max (iterate n domain s) /\
  bestScore s <= bestScore (iterate n domain s) /\
  (forall u, In u (calls s) -> In u (calls (iterate n domain s))) /\
  (List.length (calls (iterate n domain s))
   <= 2 * n + List.length (calls s))%nat.
Proof.
  revert s. induction n as [| n IH]; intros s H.
  - simpl. repeat split; auto; try lra. apply H. apply H. apply H.
  - cbn [Twiddle.iterate].
    destruct (body_best_is_max domain s H) as (B & Bm & Bi & Bl & _).
    destruct (IH _ B) as (I & Im & Ii & Il).
    repeat split; auto; try lra; try lia; apply I.
Qed.

(** X7.  After any number of passes, and so in every state in which
    [twiddle] returns, [bestScore] is the largest value the objective took
    on the inputs it was invoked on, and it is the value at one of them;
    in particular it is never below the value at [init]. *)
Theorem best_score_is_the_maximum (init : Q) (domain : bound * bound)
    (n : nat) :
  let s := iterate n domain (start init) in
  (forall u, In u (calls s) -> f u <= bestScore s) /\
  (exists u, In u (calls s) /\ bestScore s = f u) /\
  f init <= bestScore s /\
  (forall fuel tolerance s',
      final fuel init tolerance domain = Some s' ->
      (forall u, In u (calls s') -> f u <= bestScore s') /\
      (exists u, In u (calls s') /\ bestScore s' = f u) /\
      f init <= bestScore s').
Proof.
  assert (H : forall k,
             let s := iterate k domain (start init) in
             (forall u, In u (calls s) -> f u <= bestScore s) /\
             (exists u, In u (calls s) /\ bestScore s = f u) /\
             f init <= bestScore s).
  { intros k.
    destruct (iterate_best_is_max k domain _ (start_best_is_max init))
      as ((_ & Hle & Hex) & Hm & _).
    cbv zeta. repeat split; auto. }
  cbv zeta. destruct (H n) as (H1 & H2 & H3).
  repeat split; auto;
    destruct (loop_some _ _ _ _ _ _ _ _ H0) as (k & _ & -> & _);
    apply (H k).
Qed.

(** X8.  A pass never lowers [bestScore] and never drops an input from the
    log; and when it raises [bestScore], the point it ends on was not in
    the log before the pass, is in it after, and the new [bestScore] is
    the objective's value there: a memoised point never counts as an
    improvement. *)
Theorem pass_improves_only_on_fresh_points (init : Q)
    (domain : bound * bound) (n : nat) :
  let s := iterate n domain (start init) in
  let s' := body domain s in
  bestScore s <= bestScore s' /\
  (forall u, In u (calls s) -> In u (calls s')) /\
  (bestScore s < bestScore s' ->
   In (x s') (calls s') /\ ~ In (x s') (calls s) /\
   bestScore s' = f (x s')).
Proof.
  cbv zeta.
  destruct (iterate_best_is_max n domain _ (start_best_is_max init))
    as (H & _).
  destruct (body_best_is_max domain _ H) as (_ & Hm & Hi & _ & Hf).
  repeat split; auto; now apply Hf.
Qed.

(** X9.  [n] passes through the loop invoke the objective at most
    [1 + 2 n] times: once before the loop and at most twice per pass. *)
Theorem at_most_two_calls_per_pass (init : Q) (domain : bound * bound)
    (n : nat) :
  (List.length (calls (iterate n domain (start init))) <= 1 + 2 * n)%nat /\
  (forall fuel tolerance s',
      final fuel init tolerance domain = Some s' ->
      (List.length (calls s') <= 1 + 2 * fuel)%nat).
Proof.
  assert (H : forall k,
             (List.length (calls (iterate k domain (start init)))
              <= 1 + 2 * k)%nat).
  { intros k.
    destruct (iterate_best_is_max k domain _ (start_best_is_max init))
      as (_ & _ & _ & Hl).
    simpl in Hl. lia. }
  split; [apply H |].
  intros fuel tolerance s' Hf.
  destruct (loop_some _ _ _ _ _ _ _ _ Hf) as (k & Hk & -> & _).
  specialize (H k). lia.
Qed.

(** *** The upper bound of the domain *)

Lemma body_below_upper (lo : bound) (h : Q) (s : search) :
  x s <= h -> 0 <= delta s ->
  (forall u, In u (calls s) -> u <= h) ->
  x (body (lo, Some h) s) <= h /\
  (forall u, In u (calls (body (lo, Some h) s)) -> u <= h).
Proof.
  intros Hx Hd Hc.
  pose proof (up_probe_below_bound lo h s Hx) as Hu.
  simpl in Hu. apply Qlt_bool_false in Hu.
  pose proof (down_delta_nonneg (lo, Some h) s Hd) as Hd2.
  assert (Hdown : down_probe (lo, Some h) s <= h)
    by (unfold down_probe; lra).
  split.
  - rewrite body_unfold. cbv zeta.
    destruct (evaluate _ _ _) as [[score1 m1] log1].
    destruct (Qlt_bool (bestScore s) score1); [exact Hu |].
    destruct (evaluate _ _ _) as [[score2 m2] log2].
    destruct (Qlt_bool (bestScore s) score2); cbn [x];
      [exact Hdown | unfold down_probe; lra].
  - intros u Hin.
    destruct (body_calls _ _ _ _ _ _ Hin) as [H | [-> | ->]]; auto.
Qed.

(** X10.  The upper bound holds: when [init] does not exceed the upper
    bound [h] of the domain, neither does any input the objective is
    invoked on, nor the current value after any number of passes, nor the
    parameter [twiddle] returns. *)
Theorem upper_bound_is_respected (init h : Q) (lo : bound) (n : nat) :
  init <= h ->
  let s := iterate n (lo, Some h) (start init) in
  x s <= h /\
  (forall u, In u (calls s) -> u <= h) /\
  (forall fuel tolerance r,
      twiddle fuel init tolerance (lo, Some h) = Some r ->
      parameter r <= h).
Proof.
  intros Hi.
  assert (H : forall k,
             let s := iterate k (lo, Some h) (start init) in
             x s <= h /\ 0 <= delta s /\
             (forall u, In u (calls s) -> u <= h)).
  { intros k. cbv zeta.
    assert (G : forall s0, x s0 <= h -> 0 <= delta s0 ->
                (forall u, In u (calls s0) -> u <= h) ->
                x (iterate k (lo, Some h) s0) <= h /\
                0 <= delta (iterate k (lo, Some h) s0) /\
                (forall u, In u (calls (iterate k (lo, Some h) s0)) ->
                           u <= h)).
    { induction k as [| k IH]; intros s0 Hx Hd Hc; simpl; auto.
      destruct (body_below_upper lo h s0 Hx Hd Hc) as [Bx Bc].
      apply IH; auto. now apply body_delta_nonneg. }
    apply G; simpl; try lra. intros u [<- | []]. exact Hi. }
  cbv zeta. destruct (H n) as (Hx & _ & Hc).
  split; [exact Hx |]. split; [exact Hc |].
  intros fuel tolerance r Hr. unfold Twiddle.twiddle in Hr.
  destruct (final fuel init tolerance (lo, Some h)) as [s' |] eqn:E;
    [| discriminate].
  injection Hr as <-. cbn [parameter].
  unfold Twiddle.final in E.
  destruct (loop_some _ _ _ _ _ _ _ _ E) as (k & _ & -> & _).
  destruct (H k) as (Hk & _). exact Hk.
Qed.

(** *** Tolerances for which the loop cannot end *)

Lemma loop_negative_tolerance (fuel : nat) (tolerance : Q)
    (domain : bound * bound) (s : search) :
  tolerance < 0 -> 0 <= delta s -> loop fuel tolerance domain s = None.
Proof.
  intros Ht. revert s. induction fuel as [| fuel IH]; intros s Hd; simpl.
  - assert (E : Qlt_bool tolerance (delta s) = true)
      by (apply Qlt_bool_true; lra).
    rewrite E. reflexivity.
  - assert (E : Qlt_bool tolerance (delta s) = true)
      by (apply Qlt_bool_true; lra).
    rewrite E. apply IH. now apply body_delta_nonneg.
Qed.

(** X11.  With a negative tolerance [twiddle] never returns: the step is
    never negative, so the loop condition [delta > tolerance] holds before
    every pass, whatever the objective, [init] and the domain. *)
Theorem negative_tolerance_never_returns (fuel : nat) (init tolerance : Q)
    (domain : bound * bound) :
  tolerance < 0 ->
  twiddle fuel init tolerance domain = None /\
  forall n, tolerance < delta (iterate n domain (start init)).
Proof.
  intros Ht. split.
  - unfold Twiddle.twiddle, Twiddle.final.
    rewrite loop_negative_tolerance; auto. simpl. lra.
  - intros n.
    assert (0 <= delta (iterate n domain (start init)))
      by (apply iterate_delta_nonneg; simpl; lra).
    lra.
Qed.

(** *** A search that starts on the maximum *)

(** Where no value of the objective exceeds [bestScore], a pass on the
    unbounded domain fails twice, comes back to where it started and halves
    the step. *)
Lemma body_at_maximum (s : search) :
  best_is_max s -> (forall v, f v <= bestScore s) ->
  let s' := body unbounded s in
  best_is_max s' /\ bestScore s' = bestScore s /\
  x s' == x s /\ delta s' == delta s * (1 # 2).
Proof.
  intros H Hmax. cbv zeta.
  destruct (body_best_is_max unbounded s H) as (B & _).
  split; [exact B |]. clear B.
  destruct H as (Hm & Hle & _).
  rewrite body_unfold. cbv zeta. rewrite Hm.
  pose proof (evaluate_log_facts (up_probe unbounded s) _ _ Hle) as H1.
  destruct (evaluate (up_probe unbounded s) (memo_of (calls s)) (calls s))
    as [[score1 m1] log1].
  destruct H1 as (M1 & (u1 & _ & ->) & _ & L1 & _).
  assert (E1 : Qlt_bool (bestScore s) (f u1) = false)
    by (apply Qlt_bool_false; apply Hmax).
  rewrite E1. subst m1.
  assert (Hle1 : forall u, In u log1 -> f u <= bestScore s)
    by (intros u _; apply Hmax).
  pose proof (evaluate_log_facts (down_probe unbounded s) _ _ Hle1) as H2.
  destruct (evaluate (down_probe unbounded s) (memo_of log1) log1)
    as [[score2 m2] log2].
  destruct H2 as (_ & (u2 & _ & ->) & _).
  assert (E2 : Qlt_bool (bestScore s) (f u2) = false)
    by (apply Qlt_bool_false; apply Hmax).
  rewrite E2. cbn [x delta bestScore].
  split; [reflexivity |].
  unfold down_probe, down_delta, up_probe, up_delta. simpl. split; lra.
Qed.

(** Two to the [k]. *)
Fixpoint pow2 (k : nat) : Q :=
  match k with
  | O => 1
  | S k' => 2 * pow2 k'
  end.

Lemma pow2_grows (k : nat) : inject_Z (Z.of_nat k) + 1 <= pow2 k.
Proof.
  induction k as [| k IH].
  - vm_compute. discriminate.
  - cbn [pow2]. rewrite Nat2Z.inj_succ. unfold Z.succ.
    rewrite inject_Z_plus.
    assert (0 <= inject_Z (Z.of_nat k)).
    { change 0 with (inject_Z 0). rewrite <- Zle_Qle. lia. }
    change (inject_Z 1) with 1. lra.
Qed.

(** Any positive tolerance, doubled often enough, reaches the initial
    step. *)
Lemma tolerance_doubles_past_step (tolerance : Q) :
  0 < tolerance -> exists k, 1 # 10 <= tolerance * pow2 k.
Proof.
  intros Ht. destruct tolerance as [p q].
  exists (Pos.to_nat q).
  pose proof (pow2_grows (Pos.to_nat q)) as G.
  rewrite positive_nat_Z in G.
  assert (Hp : (1 <= p)%Z) by (unfold Qlt in Ht; simpl in Ht; lia).
  assert (E : (p # q) * inject_Z (Z.pos q) == inject_Z p).
  { unfold Qeq, inject_Z. simpl. rewrite Pos.mul_1_r. ring. }
  assert (P1 : 1 <= inject_Z p).
  { change 1 with (inject_Z 1). rewrite <- Zle_Qle. exact Hp. }
  assert (L : (p # q) * inject_Z (Z.pos q) <= (p # q) * pow2 (Pos.to_nat q)).
  { apply Qmult_le_l; [exact Ht | lra]. }
  lra.
Qed.

Lemma loop_at_maximum (k : nat) (tolerance : Q) :
  forall (s : search) (fuel : nat),
    best_is_max s -> (forall v, f v <= bestScore s) ->
    delta s <= tolerance * pow2 k -> (k <= fuel)%nat ->
    exists s', loop fuel tolerance unbounded s = Some s' /\
               x s' == x s /\ bestScore s' = bestScore s /\
               delta s' <= tolerance.
Proof.
  induction k as [| k IH]; intros s fuel H Hmax Hd Hf.
  - simpl in Hd.
    assert (E : Qlt_bool tolerance (delta s) = false)
      by (apply Qlt_bool_false; lra).
    exists s. destruct fuel; simpl; rewrite E;
      (split; [reflexivity | split; [reflexivity | split; [reflexivity |]]]);
      lra.
  - destruct fuel as [| fuel]; [lia |]. simpl.
    destruct (Qlt_bool tolerance (delta s)) eqn:E.
    + destruct (body_at_maximum s H Hmax) as (B & Bb & Bx & Bd).
      destruct (IH (body unbounded s) fuel B) as (s' & Hl & Hx & Hb & Hdl).
      * intros v. rewrite Bb. apply Hmax.
      * rewrite Bd. cbn [pow2] in Hd. lra.
      * lia.
      * exists s'. split; [exact Hl |].
        split; [rewrite Hx; exact Bx |].
        split; [congruence | exact Hdl].
    + apply Qlt_bool_false in E. exists s.
      split; [reflexivity | split; [reflexivity | split; [reflexivity |]]].
      exact E.
Qed.

(** X12.  A search that starts on a maximum ends there: when no value of
    the objective exceeds its value at [init], then for every positive
    tolerance and the unbounded default domain there is a number of passes
    after which [twiddle] returns, and it returns [init] with the
    objective's value at [init]. *)
Theorem maximum_at_init_is_returned (init tolerance : Q) :
  0 < tolerance -> (forall v, f v <= f init) ->
  exists n, forall fuel, (n <= fuel)%nat ->
    exists r, twiddle fuel init tolerance unbounded = Some r /\
              parameter r == init /\ score r = f init.
Proof.
  intros Ht Hmax.
  destruct (tolerance_doubles_past_step tolerance Ht) as (k & Hk).
  exists k. intros fuel Hf.
  destruct (loop_at_maximum k tolerance (start init) fuel
              (start_best_is_max init) Hmax Hk Hf)
    as (s' & Hl & Hx & Hb & _).
  exists {| parameter := x s'; score := bestScore s' |}.
  split.
  - unfold Twiddle.twiddle, Twiddle.final. rewrite Hl. reflexivity.
  - split; [exact Hx | exact Hb].
Qed.

End Objective.

Lemma parabola_maximum (v : Q) : parabola v tt <= parabola 3 tt.
Proof.
  unfold parabola. pose proof (Qsqr_nonneg (v - 3)) as H. simpl in H. lra.
Qed.

Lemma maximum_at_init_is_returned_witness :
  exists n, forall fuel, (n <= fuel)%nat ->
    exists r, twiddle unit parabola tt fuel 3 (1 # 100000) unbounded
              = Some r /\
              parameter r == 3 /\ score r = parabola 3 tt.
Proof.
  apply maximum_at_init_is_returned.
  - unfold Qlt; simpl; lia.
  - exact parabola_maximum.
Defined.

Lemma upper_bound_is_respected_witness :
  let s := iterate unit ascending tt 4 (Some 0, Some 1)
             (start unit ascending tt (1 # 2)) in
  x s <= 1 /\
  (forall u, In u (calls s) -> u <= 1) /\
  (forall fuel tolerance r,
      twiddle unit ascending tt fuel (1 # 2) tolerance (Some 0, Some 1)
      = Some r ->
      parameter r <= 1).
Proof.
  apply upper_bound_is_respected. unfold Qle; simpl; lia.
Defined.

Lemma negative_tolerance_never_returns_witness :
  twiddle unit parabola tt 50 0 (- (1 # 100)) unbounded = None /\
  forall n, - (1 # 100)
            < delta (iterate unit parabola tt n unbounded
                       (start unit parabola tt 0)).
Proof.
  apply negative_tolerance_never_returns. unfold Qlt; simpl; lia.
Defined.

End TwiddleSearchFacts.

(** * Further properties of the vector optimiser *)

Module VectorSearchFacts.

Import VectorTwiddle Samples TwiddleFacts VectorTwiddleFacts Lqa.
Local Open Scope Q_scope.

Lemma update_get (i : nat) (l : list Q) : update i (get i l) l = l.
Proof.
  unfold get. revert i. induction l as [| h t IH]; intros [| i]; simpl;
    auto. now rewrite IH.
Qed.

Section Objective.

Variable run : list Q -> Q.

Abbreviation axis_step := (axis_step run).
Abbreviation axis_step_spec := (axis_step_spec run).
Abbreviation sweep := (sweep run).
Abbreviation start := (start run).
Abbreviation twiddle := (twiddle run).

(** *** The error never grows *)

Lemma axis_step_best_err (i : nat) (s : state) :
  best_err (axis_step i s) <= best_err s.
Proof.
  unfold VectorTwiddle.axis_step.
  destruct (Qlt_bool _ (best_err s)) eqn:E1.
  - apply Qlt_bool_true in E1. cbn [best_err]. lra.
  - match goal with
    | |- context [if ?c then _ else _] => destruct c eqn:E2
    end; cbn [best_err].
    + apply Qlt_bool_true in E2. lra.
    + lra.
Qed.

Lemma axes_best_err (n : nat) (s : state) :
  best_err (axes axis_step n s) <= best_err s.
Proof.
  induction n as [| n IH].
  - apply Qle_refl.
  - rewrite axes_succ.
    pose proof (axis_step_best_err n (axes axis_step n s)). lra.
Qed.

(** X13.  The best error never grows: not through the probe of one axis,
    from any state and for any index, and not through a run of axes or a
    whole sweep. *)
Theorem best_error_never_grows (i n : nat) (s : state) :
  best_err (axis_step i s) <= best_err s /\
  best_err (axes axis_step n s) <= best_err s /\
  best_err (sweep s) <= best_err s.
Proof.
  split; [apply axis_step_best_err |].
  split; apply axes_best_err.
Qed.

(** *** What [twiddle] hands back *)

(** X14.  With a tolerance of 3 or more the loop body is never entered and
    [twiddle] falls off its end: it returns [None], not a tuple, whatever
    the error function and the fuel. *)
Theorem large_tolerance_returns_none (fuel : nat) (tol : Q) :
  3 <= tol -> twiddle fuel tol = Some PyNone.
Proof.
  intros Htol. unfold VectorTwiddle.twiddle.
  assert (C : Qlt_bool tol (sum (dp start)) = false).
  { apply Qlt_bool_false. change (sum (dp start)) with (0 + 1 + 1 + 1).
    lra. }
  destruct fuel; cbn [while]; rewrite C; reflexivity.
Qed.

(** The probe the specification words keeps [best_err] the error of [p],
    from any state. *)
Lemma axis_step_spec_consistent (i : nat) (s : state) :
  best_err s = run (p s) ->
  best_err (axis_step_spec i s) = run (p (axis_step_spec i s)).
Proof.
  intros H. unfold VectorTwiddle.axis_step_spec. cbv zeta.
  destruct (Qlt_bool _ (best_err s)); [reflexivity |].
  destruct (Qlt_bool _ (best_err s)); [reflexivity |].
  simpl. rewrite update_get. exact H.
Qed.

(** A parameter left by the single sweep is 0, 1 or -1. *)
Definition unit_or_zero (v : Q) : Prop := v = 0 \/ v = 1 \/ v = - (1).

Lemma axes_result (k : nat) :
  (k <= 3)%nat ->
  let s := axes axis_step k start in
  best_err s = run (p s) /\ Forall unit_or_zero (p s).
Proof.
  induction k as [| k IH]; intros Hk; cbv zeta.
  - split; [reflexivity |]. repeat constructor.
  - rewrite axes_succ.
    destruct (IH ltac:(lia)) as [Hc Hp].
    destruct (axes_prefix run k) as (Lp & _ & Hz).
    destruct (Hz k) as [Hpk Hdk]; [lia |].
    rewrite (axis_step_at_origin run k _ ltac:(rewrite Lp; lia) Hpk Hdk).
    split; [now apply axis_step_spec_consistent |].
    unfold VectorTwiddle.axis_step_spec. cbv zeta. rewrite Hpk, Hdk.
    destruct (Qlt_bool _ _); [| destruct (Qlt_bool _ _)]; simpl;
      apply Forall_update; auto; unfold unit_or_zero; auto.
Qed.

(** X15.  With a tolerance below 3, [twiddle] returns, after its single
    sweep, three parameters each of which is -1, 0 or 1, together with an
    error that is the error of exactly these parameters and is not above
    the error of [[0, 0, 0]]. *)
Theorem twiddle_returns_a_unit_lattice_point (fuel : nat) (tol : Q) :
  tol < 3 ->
  exists params err,
    twiddle (S fuel) tol = Some (PyTuple params err) /\
    err = run params /\ err <= run [0; 0; 0] /\
    List.length params = 3%nat /\ Forall unit_or_zero params.
Proof.
  intros Htol.
  exists (p (sweep start)), (best_err (sweep start)).
  destruct (axes_result 3 (le_n 3)) as [Hc Hp].
  destruct (axes_prefix run 3) as (Lp & _).
  split; [| split; [exact Hc | split; [| split; [exact Lp | exact Hp]]]].
  - unfold VectorTwiddle.twiddle. cbn [while].
    assert (C : Qlt_bool tol (sum (dp start)) = true).
    { apply Qlt_bool_true. change (sum (dp start)) with (0 + 1 + 1 + 1).
      lra. }
    rewrite C. reflexivity.
  - apply (axes_best_err 3 start).
Qed.

End Objective.

Lemma large_tolerance_returns_none_witness :
  twiddle bowl 7 3 = Some PyNone.
Proof.
  apply large_tolerance_returns_none. unfold Qle; simpl; lia.
Defined.

Lemma twiddle_returns_a_unit_lattice_point_witness :
  exists params err,
    twiddle bowl 1 (1 # 5) = Some (PyTuple params err) /\
    err = bowl params /\ err <= bowl [0; 0; 0] /\
    List.length params = 3%nat /\ Forall unit_or_zero params.
Proof.
  apply twiddle_returns_a_unit_lattice_point. unfold Qlt; simpl; lia.
Defined.

End VectorSearchFacts.

(** * Properties of the controllers *)

Module RunnerFacts.

Import Robot Runner RobotFacts.
Local Open Scope R_scope.

(** Two loops over the same range whose passes keep a relation end in
    related states. *)
Lemma for_range_related (rel : loop_state -> loop_state -> Prop)
    (step1 step2 : loop_state -> nat -> loop_state) (n : nat)
    (s1 s2 : loop_state) :
  (forall a b i, rel a b -> rel (step1 a i) (step2 b i)) ->
  rel s1 s2 -> rel (for_range n step1 s1) (for_range n step2 s2).
Proof.
  intros Hstep. unfold for_range. generalize (seq 0 n).
  intros l. revert s1 s2. induction l as [| i l IH]; intros s1 s2 H; simpl.
  - exact H.
  - apply IH. now apply Hstep.
Qed.

(** A property every pass keeps holds after the loop. *)
Lemma for_range_invariant (inv : nat -> loop_state -> Prop)
    (step : loop_state -> nat -> loop_state) (n : nat) (s : loop_state) :
  (forall a i, inv i a -> inv (S i) (step a i)) ->
  inv 0%nat s -> inv n (for_range n step s).
Proof.
  intros Hstep H0. unfold for_range.
  assert (G : forall k start a, inv start a ->
                inv (start + k)%nat (fold_left step (seq start k) a)).
  { induction k as [| k IH]; intros start a Ha; simpl.
    - now rewrite Nat.add_0_r.
    - rewrite Nat.add_succ_r. apply (IH (S start)). now apply Hstep. }
  apply (G n 0%nat s H0).
Qed.

(** What the outputs of a [run] are: the trajectories and the vehicle. *)
Definition same_output (a b : loop_state) : Prop :=
  vehicle a = vehicle b /\ x_trajectory a = x_trajectory b /\
  y_trajectory a = y_trajectory b.

(** X16.  The controllers nest: the PID controller with integral gain 0
    drives the vehicle exactly as the PD controller does, and the PD
    controller with derivative gain 0 exactly as the P controller:
    the same trajectories and the same final vehicle, for every vehicle,
    generator, step count and speed. *)
Theorem controllers_nest (tau_p tau_d : R) (n : nat) (speed : R)
    (st : Robot * rng) :
  same_output (run_pid tau_p tau_d 0 n speed st)
              (run_pd tau_p tau_d n speed st) /\
  same_output (run_pd tau_p 0 n speed st) (run_p tau_p n speed st).
Proof.
  split.
  - assert (H : same_output (run_pid tau_p tau_d 0 n speed st)
                            (run_pd tau_p tau_d n speed st) /\
                cte_prev (run_pid tau_p tau_d 0 n speed st)
                = cte_prev (run_pd tau_p tau_d n speed st)).
    { unfold run_pid, run_pd.
      apply (for_range_related
               (fun a b => same_output a b /\ cte_prev a = cte_prev b)).
      - intros a b i ((Hv & Hx & Hy) & Hc).
        unfold pid_step, pd_step, same_output. cbn [vehicle x_trajectory
          y_trajectory cte_prev]. rewrite Hv, Hx, Hy, Hc.
        replace (- tau_p * y (fst (vehicle b))
                 - tau_d * (y (fst (vehicle b)) - cte_prev b)
                 - 0 * (cte_sum a + y (fst (vehicle b))))
          with (- tau_p * y (fst (vehicle b))
                - tau_d * (y (fst (vehicle b)) - cte_prev b)) by ring.
        repeat split.
      - repeat split. }
    apply H.
  - unfold run_pd, run_p.
    apply (for_range_related same_output).
    + intros a b i (Hv & Hx & Hy).
      unfold pd_step, p_step, same_output. cbn [vehicle x_trajectory
        y_trajectory]. rewrite Hv, Hx, Hy.
      replace (- tau_p * y (fst (vehicle b))
               - 0 * (y (fst (vehicle b)) - cte_prev a))
        with (- tau_p * y (fst (vehicle b))) by ring.
      repeat split.
    + repeat split.
Qed.

(** X17.  The optimiser's [run] is the PID controller over [2 n] steps:
    for gains [k0], [k1], [k2] (further items of [params] are ignored) and
    [n > 0] it returns the trajectories of [run_pid] with these gains over
    [2 n] steps. *)
Theorem run_is_pid_over_twice_n (k0 k1 k2 : R) (rest : list R) (n : nat)
    (speed : R) (st : Robot * rng) :
  exists error,
    run (k0 :: k1 :: k2 :: rest) (S n) speed st
    = Returns (x_trajectory (run_pid k0 k1 k2 (2 * S n) speed st))
              (y_trajectory (run_pid k0 k1 k2 (2 * S n) speed st))
              error.
Proof.
  assert (H : same_output (params_loop k0 k1 k2 (S n) speed st)
                          (run_pid k0 k1 k2 (2 * S n) speed st) /\
              cte_prev (params_loop k0 k1 k2 (S n) speed st)
              = cte_prev (run_pid k0 k1 k2 (2 * S n) speed st) /\
              cte_sum (params_loop k0 k1 k2 (S n) speed st)
              = cte_sum (run_pid k0 k1 k2 (2 * S n) speed st)).
  { unfold params_loop, run_pid.
    apply (for_range_related
             (fun a b => same_output a b /\ cte_prev a = cte_prev b /\
                         cte_sum a = cte_sum b)).
    - intros a b i ((Hv & Hx & Hy) & Hc & Hs).
      unfold params_step, pid_step, same_output. cbn [vehicle x_trajectory
        y_trajectory cte_prev cte_sum]. rewrite Hv, Hx, Hy, Hc, Hs.
      repeat split.
    - repeat split. }
  destruct H as ((_ & Hx & Hy) & _).
  eexists. unfold run. cbv zeta. rewrite Hx, Hy. reflexivity.
Qed.

(** The variables a pass of the optimiser's [run] keeps in step: one more
    item on each trajectory, an error that is not negative. *)
Lemma params_loop_shape (k0 k1 k2 : R) (n : nat) (speed : R)
    (st : Robot * rng) :
  let s := params_loop k0 k1 k2 n speed st in
  List.length (x_trajectory s) = (2 * n)%nat /\
  List.length (y_trajectory s) = (2 * n)%nat /\ 0 <= err s.
Proof.
  unfold params_loop.
  apply (for_range_invariant
           (fun i s => List.length (x_trajectory s) = i /\
                       List.length (y_trajectory s) = i /\ 0 <= err s)).
  - intros a i (Hx & Hy & He). unfold params_step.
    cbn [x_trajectory y_trajectory err].
    rewrite !length_app, Hx, Hy. cbn [List.length].
    repeat split; try lia.
    destruct (n <=? i)%nat; [| exact He].
    pose proof (Rle_0_sqr (y (fst (vehicle a)))) as Hs.
    unfold Rsqr in Hs. lra.
  - simpl. repeat split; lra.
Qed.

(** X18.  What the optimiser's [run] hands back: with [n = 0] it raises
    [ZeroDivisionError], whatever [params] holds; with [n > 0] and fewer
    than three gains it raises [IndexError]; otherwise it returns two
    trajectories of [2 n] points each and an error that is not
    negative. *)
Theorem run_outcome (params : list R) (n : nat) (speed : R)
    (st : Robot * rng) :
  (n = 0%nat -> run params n speed st = ZeroDivisionError) /\
  ((0 < n)%nat -> (List.length params < 3)%nat ->
   run params n speed st = IndexError) /\
  ((0 < n)%nat -> (3 <= List.length params)%nat ->
   exists xs ys error,
     run params n speed st = Returns xs ys error /\
     List.length xs = (2 * n)%nat /\ List.length ys = (2 * n)%nat /\
     0 <= error).
Proof.
  split; [| split].
  - intros ->. reflexivity.
  - intros Hn Hl. destruct n as [| n]; [lia |].
    destruct params as [| a [| b [| c l]]]; simpl in Hl; try lia;
      reflexivity.
  - intros Hn Hl. destruct n as [| n]; [lia |].
    destruct params as [| a [| b [| c l]]]; simpl in Hl; try lia.
    destruct (params_loop_shape a b c (S n) speed st) as (Hx & Hy & He).
    eexists. eexists. eexists. unfold run. cbv zeta.
    split; [reflexivity |]. split; [exact Hx |]. split; [exact Hy |].
    apply Rmult_le_pos; [exact He |].
    left. apply Rinv_0_lt_compat. apply lt_0_INR. lia.
Qed.

End RunnerFacts.

(** * The heading under rounding *)

Module HeadingFacts.

Import Robot RobotFacts.
Local Open Scope R_scope.


Section Format.

Variable rnd : R -> R.
Variable tau : R.

Hypothesis tau_pos : 0 < tau.
Hypothesis rnd_monotone : forall u v, u <= v -> rnd u <= rnd v.
Hypothesis rnd_zero : rnd 0 = 0.
Hypothesis rnd_tau : rnd tau = tau.







End Format.


End HeadingFacts.
